(** * dynamodb-toolbox: reference extension, schema lightening, condition paths

    A shallow embedding of
    - [parseReferenceExtension]
      (src/entity/actions/update/updateItemParams/extension/reference.ts),
    - [light], [lightTuple], [lightObj] (the schema "lightening" helpers),
    - the condition-path compiler exercised by the [parseCondition] test
      suite, whose implementation is outside the sources at hand and is
      therefore modelled from the specification.

    Layout: the data model and the operations come first, the properties
    afterwards. *)

From Stdlib Require Import List String Ascii Bool Arith ZArith Lia.
From Stdlib Require Import DecimalString.
Import ListNotations.
Local Open Scope string_scope.
Local Open Scope list_scope.

Set Warnings "-register-all".

(* ================================================================= *)
(** ** JavaScript values *)

(** Property keys of an object: plain strings, or symbols (told apart by
    their description; [$GET] is the only symbol in play). *)
Inductive PropKey : Type :=
| KStr (name : string)
| KSym (description : string).

Definition PropKey_eqb (a b : PropKey) : bool :=
  match a, b with
  | KStr x, KStr y => String.eqb x y
  | KSym x, KSym y => String.eqb x y
  | _, _ => false
  end.

(** Values of type [unknown].  Numbers are kept as integers: the code under
    study only passes them around. *)
Inductive value : Type :=
| VUndefined
| VNull
| VBool (b : bool)
| VNum (n : Z)
| VStr (s : string)
| VArr (elems : list value)
| VObj (props : list (PropKey * value)).

Fixpoint lookupProp (k : PropKey) (props : list (PropKey * value)) : value :=
  match props with
  | [] => VUndefined
  | (k', v) :: rest => if PropKey_eqb k k' then v else lookupProp k rest
  end.

Definition hasProp (k : PropKey) (props : list (PropKey * value)) : bool :=
  existsb (fun kv => PropKey_eqb k (fst kv)) props.

(** [input[k]]: reading a missing property, or a property of a non-object,
    gives [undefined]. *)
Definition getProp (input : value) (k : PropKey) : value :=
  match input with
  | VObj props => lookupProp k props
  | _ => VUndefined
  end.

Definition isUndefined (v : value) : bool :=
  match v with VUndefined => true | _ => false end.

(** [~/utils/validation/isArray.js] and [isString.js]. *)
Definition isArray (v : value) : bool :=
  match v with VArr _ => true | _ => false end.

Definition isString (v : value) : bool :=
  match v with VStr _ => true | _ => false end.

(** [$GET], exported by [../../symbols/index.js], and its guard
    [isGetting]: an object that has a [$GET] property. *)
Definition GET : PropKey := KSym "$GET".

Definition isGetting (input : value) : bool :=
  match input with
  | VObj props => hasProp GET props
  | _ => false
  end.

(** Array destructuring [const [a, b] = arr]: a missing position reads as
    [undefined]. *)
Definition elemAt (i : nat) (elems : list value) : value :=
  nth i elems VUndefined.

(** Nesting depth of a value, the measure along which fallback chains are
    unfolded. *)
Fixpoint depth (v : value) : nat :=
  match v with
  | VArr elems => S (fold_right (fun x acc => Nat.max (depth x) acc) 0 elems)
  | VObj props =>
      S (fold_right (fun kv acc => Nat.max (depth (snd kv)) acc) 0 props)
  | _ => 0
  end.

(* ================================================================= *)
(** ** Schemas *)

Record SchemaProps : Type := { savedAs : option string }.

(** The eleven schema kinds named by [Light<SCHEMA>], with the children each
    kind carries there ([elements], [attributes], [keys]) and its [props]. *)
Inductive Schema : Type :=
| AnySchema (props : SchemaProps)
| NullSchema (props : SchemaProps)
| BooleanSchema (props : SchemaProps)
| NumberSchema (props : SchemaProps)
| StringSchema (props : SchemaProps)
| BinarySchema (props : SchemaProps)
| SetSchema (elements : Schema) (props : SchemaProps)
| ListSchema (elements : Schema) (props : SchemaProps)
| MapSchema (attributes : list (string * Schema)) (props : SchemaProps)
| RecordSchema (keys elements : Schema) (props : SchemaProps)
| AnyOfSchema (elements : list Schema) (props : SchemaProps).

Definition propsOf (schema : Schema) : SchemaProps :=
  match schema with
  | AnySchema p | NullSchema p | BooleanSchema p | NumberSchema p
  | StringSchema p | BinarySchema p | SetSchema _ p | ListSchema _ p
  | MapSchema _ p | RecordSchema _ _ p | AnyOfSchema _ p => p
  end.

(* ================================================================= *)
(** ** Lightening (src/unnamed/part_000) *)

Module Lightener.

(** [light = schema => schema as unknown as Light<SCHEMA>]. *)
Definition light (schema : Schema) : Schema := schema.

(** [lightTuple = (...schemas) => schemas as unknown as LightTuple<SCHEMAS>]:
    the rest parameter is the array of the arguments. *)
Definition lightTuple (schemas : list Schema) : list Schema := schemas.

(** [lightObj = schemas => schemas as unknown as LightObj<SCHEMAS>]. *)
Definition lightObj (schemas : list (string * Schema))
  : list (string * Schema) := schemas.

End Lightener.

(* ================================================================= *)
(** ** Errors, paths and generators *)

Inductive PathPart : Type :=
| PStr (key : string)
| PNum (index : nat).

Definition ArrayPath : Type := list PathPart.

(** [new DynamoDBToolboxError(code, { message, path, payload: { received } })]. *)
Record DynamoDBToolboxError : Type := {
  code : string;
  message : string;
  path : option string;
  received : value
}.

Record IteratorResult : Type := { result_value : value; done : bool }.

(** A generator object that is never sent anything, as the trace of what
    its successive [next()] calls do.  [GDone] is a generator that has
    already returned or thrown. *)
Inductive Generator : Type :=
| GYield (v : value) (rest : Generator)
| GReturn (v : value)
| GThrow (e : DynamoDBToolboxError)
| GDone.

(** [g.next()]: the outcome, and the generator afterwards. *)
Definition next (g : Generator)
  : (DynamoDBToolboxError + IteratorResult) * Generator :=
  match g with
  | GYield v rest => (inr {| result_value := v; done := false |}, rest)
  | GReturn v => (inr {| result_value := v; done := true |}, GDone)
  | GThrow e => (inl e, GDone)
  | GDone => (inr {| result_value := VUndefined; done := true |}, GDone)
  end.

(** Every value a generator hands out, yielded or returned, in order. *)
Fixpoint emitted (g : Generator) : list value :=
  match g with
  | GYield v rest => v :: emitted rest
  | GReturn v => [v]
  | GThrow _ | GDone => []
  end.

(* ================================================================= *)
(** ** The extension-parser interface *)

(** [ExtensionParserOptions]: both fields are optional. *)
Record ExtensionParserOptions : Type := {
  transform : option bool;
  valuePath : option ArrayPath
}.

(** The two shapes an extension parser answers with.  [extensionParser] is a
    generator function taking no argument; it is identified with the
    generator each call of it creates. *)
Inductive ExtensionResult : Type :=
| IsExtension (extensionParser : Generator)
| NotExtension (unextendedInput : value).

Definition isExtension (r : ExtensionResult) : bool :=
  match r with IsExtension _ => true | NotExtension _ => false end.

Definition ExtensionParser : Type :=
  Schema -> value -> ExtensionParserOptions -> ExtensionResult.

(** The options [reference.ts] hands to [Parser.start]. *)
Record ParserOptions : Type := {
  opt_fill : bool;
  opt_transform : bool;
  opt_parseExtension : ExtensionParser;
  opt_valuePath : ArrayPath
}.

Definition InvalidAttributeInput : string := "parsing.invalidAttributeInput".

(* ================================================================= *)
(** ** parseReferenceExtension (reference.ts) *)

Section ReferenceExtension.

(** [~/schema/actions/utils/formatArrayPath.js] is outside the sources at
    hand; [reference.ts] relies only on its result being a string or
    [undefined]. *)
Variable formatArrayPath : ArrayPath -> option string.

(** The value validation/transform pipeline for plain (unextended) values,
    a collaborator: the validated value, then its transformed form, or the
    error raised. *)
Variable validateValue :
  Schema -> value -> ArrayPath -> DynamoDBToolboxError + value.
Variable transformValue :
  Schema -> value -> ArrayPath -> DynamoDBToolboxError + value.

(** Modelled from the spec: the general value parser
    [new Parser(schema).start(inputValue, options)] of
    [~/schema/actions/parse], which is not among the sources.  It first
    offers the value to the installed extension ("itself capable of
    recursively invoking this same extension") and delegates to the
    extension's generator when the extension claims the value; a plain value
    goes through the validation pipeline, in the two-phase protocol: the
    untransformed value is yielded, the transformed one returned, and with
    [transform] off the untransformed value is returned at once.  Only the
    [fill: false] mode, the one [reference.ts] asks for, is modelled. *)
Definition Parser_start (schema : Schema) (inputValue : value)
    (options : ParserOptions) : Generator :=
  match opt_parseExtension options schema inputValue
          {| transform := Some (opt_transform options);
             valuePath := Some (opt_valuePath options) |} with
  | IsExtension extensionParser => extensionParser
  | NotExtension unextendedInput =>
      match validateValue schema unextendedInput (opt_valuePath options) with
      | inl e => GThrow e
      | inr parsedValue =>
          if opt_transform options then
            GYield parsedValue
              match transformValue schema parsedValue
                      (opt_valuePath options) with
              | inl e => GThrow e
              | inr transformedValue => GReturn transformedValue
              end
          else GReturn parsedValue
      end
  end.

(** [`${path !== undefined ? `for attribute '${path}' ` : ''}`]. *)
Definition forAttribute (path : option string) : string :=
  match path with
  | Some p => "for attribute '" ++ p ++ "' "
  | None => ""
  end.

(** [{ [$GET]: [reference, ...(fallbackParser !== undefined
                                 ? [fallbackParser.next().value] : [])] }],
    given what [fallbackParser.next().value] evaluated to. *)
Definition referenceValue (reference : value) (fallbackValue : option value)
  : value :=
  VObj [(GET, VArr (reference ::
                      match fallbackValue with
                      | Some v => [v]
                      | None => []
                      end))].

(** Lines 73-91: the two emissions, threading the state of
    [fallbackParser] from its first [next()] to its second. *)
Definition emitReference (transform : bool) (reference : value)
    (fallbackParser : option Generator) : Generator :=
  match fallbackParser with
  | None =>
      let parsedValue := referenceValue reference None in
      if transform then
        GYield parsedValue (GReturn (referenceValue reference None))
      else GReturn parsedValue
  | Some parser =>
      match next parser with
      | (inl e, _) => GThrow e
      | (inr r1, parser1) =>
          let parsedValue :=
            referenceValue reference (Some (result_value r1)) in
          if transform then
            GYield parsedValue
              match next parser1 with
              | (inl e, _) => GThrow e
              | (inr r2, _) =>
                  GReturn (referenceValue reference (Some (result_value r2)))
              end
          else GReturn parsedValue
      end
  end.

(** The generator method [*extensionParser()] of lines 33-92, closed over
    [schema], [inputValue], [transform] and [valuePath].  [self] stands for
    the function installed as [parseExtension] for the fallback, which in
    the source is [parseReferenceExtension] itself. *)
Definition extensionParser (self : ExtensionParser) (schema : Schema)
    (inputValue : value) (transform : bool) (valuePath : option ArrayPath)
  : Generator :=
  let references := getProp inputValue GET in
  let referencesPath :=
    match valuePath with Some p => p | None => [] end ++ [PStr "$GET"] in
  match references with
  | VArr elems =>
      let reference := elemAt 0 elems in
      let fallback := elemAt 1 elems in
      if negb (isString reference) then
        let path := formatArrayPath (referencesPath ++ [PNum 0]) in
        GThrow {| code := InvalidAttributeInput;
                  message := "First elements of references "
                             ++ forAttribute path
                             ++ "should be strings";
                  path := path;
                  received := reference |}
      else
        let fallbackParser :=
          if negb (isUndefined fallback) then
            Some (Parser_start schema fallback
                    {| opt_fill := false;
                       opt_transform := transform;
                       opt_parseExtension := self;
                       opt_valuePath := referencesPath ++ [PNum 1] |})
          else None in
        emitReference transform reference fallbackParser
  | _ =>
      let path := formatArrayPath referencesPath in
      GThrow {| code := InvalidAttributeInput;
                message := "References "
                           ++ forAttribute path
                           ++ "should be a tuple of one or two elements";
                path := path;
                received := references |}
  end.

(** The body of [parseReferenceExtension] (lines 19-93); [transform]
    defaults to [true]. *)
Definition parseReferenceExtensionF (self : ExtensionParser)
  : ExtensionParser :=
  fun schema inputValue options =>
    let transform :=
      match transform options with Some b => b | None => true end in
    let valuePath := valuePath options in
    if negb (isGetting inputValue) || isUndefined (getProp inputValue GET)
    then NotExtension inputValue
    else IsExtension (extensionParser self schema inputValue transform valuePath).

(** The recursion of the source, unfolded [fuel] times; the extension
    installed below the last unfolding is never reached when [fuel] exceeds
    the depth of the input (see [parseReferenceExtension_unfold]). *)
Fixpoint parseReferenceExtension_fuel (fuel : nat) : ExtensionParser :=
  match fuel with
  | 0 => fun _ inputValue _ => NotExtension inputValue
  | S fuel' => parseReferenceExtensionF (parseReferenceExtension_fuel fuel')
  end.

Definition parseReferenceExtension : ExtensionParser :=
  fun schema inputValue options =>
    parseReferenceExtension_fuel (S (depth inputValue))
      schema inputValue options.

End ReferenceExtension.

(* ================================================================= *)
(** ** Reference constructs: vocabulary of the properties *)

(** The guard of line 24, read positively: the input is an object with a
    [$GET] entry whose value is defined. *)
Definition isReference (inputValue : value) : bool :=
  isGetting inputValue && negb (isUndefined (getProp inputValue GET)).

(** [transform = true] and [valuePath ?? []] followed by ['$GET'], as the
    options are read at lines 22 and 35. *)
Definition transformOf (options : ExtensionParserOptions) : bool :=
  match transform options with Some b => b | None => true end.

Definition referencesPathOf (options : ExtensionParserOptions) : ArrayPath :=
  match valuePath options with Some p => p | None => [] end ++ [PStr "$GET"].

(** "An ordered pair of one or two elements". *)
Definition isOneOrTwoTuple (references : value) : bool :=
  match references with
  | VArr [_] | VArr [_; _] => true
  | _ => false
  end.

(** A construct is malformed, in the wording of the specification, when its
    [$GET] value is not such a pair or its first element is not a string. *)
Definition malformed (references : value) : bool :=
  negb (isOneOrTwoTuple references)
  || match references with
     | VArr elems => negb (isString (elemAt 0 elems))
     | _ => true
     end.

(** What the generator itself checks (lines 37 and 51): the [$GET] value is
    an array, and its first element a string. *)
Definition rejected (references : value) : bool :=
  match references with
  | VArr elems => negb (isString (elemAt 0 elems))
  | _ => true
  end.

(** [g.next()] throws an error with the given code. *)
Definition raises (g : Generator) (errorCode : string) : Prop :=
  exists e, fst (next g) = inl e /\ code e = errorCode.

(** A chain of references, each the fallback of the one before, ending in
    [fallback]. *)
Fixpoint fallbackChain (references : list string) (fallback : value) : value :=
  match references with
  | [] => fallback
  | r :: more => VObj [(GET, VArr [VStr r; fallbackChain more fallback])]
  end.

(** [{ value: { [$GET]: [r, res.value] }, done }]: the result of an
    advancement of the fallback's parser, wrapped behind the reference. *)
Definition wrapFallback (r : string) (res : IteratorResult) (isDone : bool)
  : IteratorResult :=
  {| result_value := VObj [(GET, VArr [VStr r; result_value res])];
     done := isDone |}.

(** [follows transform r parser g]: the generator [g] goes with [parser]
    advancement for advancement.  Where [parser] raises, [g] raises the same
    error and is finished.  Otherwise the first advancement of [g] hands out
    what the first advancement of [parser] gave, behind the reference [r]:
    as a yield when [transform] is on, the second advancement of [g] then
    doing the same with the second advancement of [parser] and returning;
    as a return, at once, when [transform] is off. *)
Definition follows (transform : bool) (r : string) (parser g : Generator)
  : Prop :=
  match next parser with
  | (inl e, _) => next g = (inl e, GDone)
  | (inr first, parser1) =>
      if transform then
        exists g1,
          next g = (inr (wrapFallback r first false), g1)
          /\ match next parser1 with
             | (inl e, _) => next g1 = (inl e, GDone)
             | (inr second, _) =>
                 next g1 = (inr (wrapFallback r second true), GDone)
             end
      else next g = (inr (wrapFallback r first true), GDone)
  end.

Section WellFormedConstructs.

Variable validateValue :
  Schema -> value -> ArrayPath -> DynamoDBToolboxError + value.
Variable transformValue :
  Schema -> value -> ArrayPath -> DynamoDBToolboxError + value.

(** [Accepted schema path input parsed transformed]: [input], met at
    [path], is well formed all the way down.  It is a plain value that the
    validation pipeline takes to [parsed] and then [transformed], or a
    reference construct of one element, or one of two elements whose
    fallback is itself accepted. *)
Inductive Accepted (schema : Schema)
  : ArrayPath -> value -> value -> value -> Prop :=
| Accepted_plain path input parsed transformed :
    isReference input = false ->
    validateValue schema input path = inr parsed ->
    transformValue schema parsed path = inr transformed ->
    Accepted schema path input parsed transformed
| Accepted_single path input r :
    isReference input = true ->
    getProp input GET = VArr [VStr r] ->
    Accepted schema path input
      (referenceValue (VStr r) None) (referenceValue (VStr r) None)
| Accepted_fallback path input r fallback parsed transformed :
    isReference input = true ->
    getProp input GET = VArr [VStr r; fallback] ->
    fallback <> VUndefined ->
    Accepted schema (path ++ [PStr "$GET"; PNum 1])
      fallback parsed transformed ->
    Accepted schema path input
      (referenceValue (VStr r) (Some parsed))
      (referenceValue (VStr r) (Some transformed)).

End WellFormedConstructs.

(* ================================================================= *)
(** ** Sample collaborators *)

(** The collaborators above are parameters of the development.  The
    instances below serve to run it on concrete inputs. *)

Definition natToString (n : nat) : string :=
  NilEmpty.string_of_uint (Nat.to_uint n).

(** A path printer: keys joined by dots, indices in brackets, and no path
    for the root. *)
Fixpoint joinPath (isRoot : bool) (arrayPath : ArrayPath) : string :=
  match arrayPath with
  | [] => ""
  | PStr key :: rest =>
      (if isRoot then "" else ".") ++ key ++ joinPath false rest
  | PNum index :: rest => "[" ++ natToString index ++ "]" ++ joinPath false rest
  end.

Definition formatArrayPath_sample (arrayPath : ArrayPath) : option string :=
  match arrayPath with
  | [] => None
  | _ => Some (joinPath true arrayPath)
  end.

(** A validator that checks the kind of a value against the discriminant of
    the schema node, one level deep. *)
Definition kindAccepts (schema : Schema) (v : value) : bool :=
  match schema, v with
  | AnySchema _, _ => true
  | NullSchema _, VNull => true
  | BooleanSchema _, VBool _ => true
  | NumberSchema _, VNum _ => true
  | StringSchema _, VStr _ => true
  | SetSchema _ _, VArr _ => true
  | ListSchema _ _, VArr _ => true
  | MapSchema _ _, VObj _ => true
  | RecordSchema _ _ _, VObj _ => true
  | _, _ => false
  end.

Definition validateValue_sample (schema : Schema) (v : value)
    (valuePath : ArrayPath) : DynamoDBToolboxError + value :=
  if kindAccepts schema v then inr v
  else inl {| code := InvalidAttributeInput;
              message := "Invalid attribute input";
              path := formatArrayPath_sample valuePath;
              received := v |}.

Definition transformValue_sample (schema : Schema) (v : value)
    (valuePath : ArrayPath) : DynamoDBToolboxError + value := inr v.

Definition noProps : SchemaProps := {| savedAs := None |}.
Definition noOptions : ExtensionParserOptions :=
  {| transform := None; valuePath := None |}.

(** [parseReferenceExtension] over the sample collaborators. *)
Definition parseReferenceExtension_sample : ExtensionParser :=
  parseReferenceExtension
    formatArrayPath_sample validateValue_sample transformValue_sample.

(** [{ [$GET]: references }]. *)
Definition getting (references : value) : value := VObj [(GET, references)].

(* ================================================================= *)
(** ** Condition paths *)

(** The [parseCondition] suite (src/unnamed/part_001) drives
    [ConditionParser], whose implementation is not among the sources.  Its
    four components are modelled from the specification, sections 4.1 to
    4.4. *)

Definition charIn (c : ascii) (s : string) : bool :=
  existsb (Ascii.eqb c) (list_ascii_of_string s).

Module PathLexer.

Inductive PathSegment : Type :=
| field (name : string)
| index (value : nat)
| escapedField (name : string).

(** Where the lexer stands between two characters. *)
Inductive State : Type :=
| Start
| AfterDot
| InField (name : string)
| Opened
| InIndex (value : nat)
| InQuote (content : string)
| QuoteClosed (content : string)
| Closed.

Definition isDigit (c : ascii) : bool :=
  Nat.leb 48 (nat_of_ascii c) && Nat.leb (nat_of_ascii c) 57.

Definition digitValue (c : ascii) : nat := nat_of_ascii c - 48.

Definition isReserved (c : ascii) : bool := charIn c ".[]".

Definition snoc (s : string) (c : ascii) : string := s ++ String c "".

(** Modelled from the spec: one step of the path lexer of section 4.1,
    which is not among the sources.  Segments are separated by ['.']; an
    index segment is ['['] digits [']']; a quoted-key segment is [['] content
    [']] where the content is any run of characters other than the quote;
    an unquoted field segment is a non-empty run of characters other than
    ['.'], ['['] and [']'].  A bracketed segment follows the segment before
    it directly (as in [listed[4]] and [record['[']]); after a ['.'] only an
    unquoted field may start.  The step gives the next state and the
    segments completed by the character, or nothing when the grammar is
    violated. *)
Definition step (st : State) (c : ascii)
  : option (State * list PathSegment) :=
  match st with
  | Start =>
      if Ascii.eqb c "[" then Some (Opened, [])
      else if isReserved c then None
      else Some (InField (String c ""), [])
  | AfterDot =>
      if isReserved c then None else Some (InField (String c ""), [])
  | InField name =>
      if Ascii.eqb c "." then Some (AfterDot, [field name])
      else if Ascii.eqb c "[" then Some (Opened, [field name])
      else if Ascii.eqb c "]" then None
      else Some (InField (snoc name c), [])
  | Opened =>
      if isDigit c then Some (InIndex (digitValue c), [])
      else if Ascii.eqb c "'" then Some (InQuote "", [])
      else None
  | InIndex value =>
      if isDigit c then Some (InIndex (10 * value + digitValue c), [])
      else if Ascii.eqb c "]" then Some (Closed, [index value])
      else None
  | InQuote content =>
      if Ascii.eqb c "'" then Some (QuoteClosed content, [])
      else Some (InQuote (snoc content c), [])
  | QuoteClosed content =>
      if Ascii.eqb c "]" then Some (Closed, [escapedField content])
      else None
  | Closed =>
      if Ascii.eqb c "." then Some (AfterDot, [])
      else if Ascii.eqb c "[" then Some (Opened, [])
      else None
  end.

(** The end of the path: a field being read is completed; a path may not
    end inside brackets or on a separator. *)
Definition finish (st : State) : option (list PathSegment) :=
  match st with
  | Start | Closed => Some []
  | InField name => Some [field name]
  | _ => None
  end.

Fixpoint feed (st : State) (segments : list PathSegment) (input : string)
  : option (State * list PathSegment) :=
  match input with
  | EmptyString => Some (st, segments)
  | String c rest =>
      match step st c with
      | Some (st', completed) => feed st' (segments ++ completed) rest
      | None => None
      end
  end.

(** Modelled from the spec: [tokenize(path)] of section 4.1; [None] is the
    [InvalidPath] failure. *)
Definition tokenize (path : string) : option (list PathSegment) :=
  match feed Start [] path with
  | Some (st, segments) =>
      match finish st with
      | Some last => Some (segments ++ last)
      | None => None
      end
  | None => None
  end.

End PathLexer.

Module PathGrammar.

Import PathLexer.

(** Modelled from the spec: the grammar of section 4.1, taken as the set of
    texts that spell a sequence of segments.  A segment is written as an
    unquoted field, as digits between brackets, or as a content between
    [['] and [']]. *)
Inductive Written : Type :=
| plain (name : string)
| bracketed (digits : string)
| quoted (content : string).

Definition isEmpty (s : string) : bool :=
  match s with EmptyString => true | String _ _ => false end.

Definition noneReserved (s : string) : bool :=
  forallb (fun c => negb (isReserved c)) (list_ascii_of_string s).

Definition allDigits (s : string) : bool :=
  forallb isDigit (list_ascii_of_string s).

(** An unquoted field is a non-empty run of characters other than ['.'],
    ['['] and [']']; an index is a non-empty run of digits; a quoted content
    holds no quote. *)
Definition wellWritten (w : Written) : bool :=
  match w with
  | plain name => negb (isEmpty name) && noneReserved name
  | bracketed digits => negb (isEmpty digits) && allDigits digits
  | quoted content => negb (charIn "'" content)
  end.

(** The number a run of digits denotes, continuing from [value]. *)
Fixpoint numeral (value : nat) (digits : string) : nat :=
  match digits with
  | EmptyString => value
  | String c rest => numeral (10 * value + digitValue c) rest
  end.

Definition segmentOf (w : Written) : PathSegment :=
  match w with
  | plain name => field name
  | bracketed digits => index (numeral 0 digits)
  | quoted content => escapedField content
  end.

(** The text of the segments after the first: a field is introduced by a
    dot, a bracketed segment follows what precedes it directly. *)
Fixpoint writeRest (ws : list Written) : string :=
  match ws with
  | [] => ""
  | plain name :: rest => "." ++ name ++ writeRest rest
  | bracketed digits :: rest => "[" ++ digits ++ "]" ++ writeRest rest
  | quoted content :: rest => "['" ++ content ++ "']" ++ writeRest rest
  end.

(** The text of a path: a leading field takes no dot. *)
Definition write (ws : list Written) : string :=
  match ws with
  | plain name :: rest => name ++ writeRest rest
  | _ => writeRest ws
  end.

(** [ws] spells the path [text], which stands for [segments]. *)
Definition spells (ws : list Written) (text : string)
    (segments : list PathSegment) : Prop :=
  forallb wellWritten ws = true
  /\ write ws = text
  /\ map segmentOf ws = segments.

(** What has been read when the lexer stands in state [st] with [segments]
    completed: the text of the segments written so far, and the beginning
    of the one being written. *)
Definition reading (read : string) (st : State)
    (segments : list PathSegment) : Prop :=
  match st with
  | Start => read = "" /\ segments = []
  | AfterDot =>
      exists ws,
        ws <> [] /\ spells ws (write ws) segments
        /\ read = (write ws ++ ".")%string
  | InField name =>
      exists ws, spells (ws ++ [plain name]) read (segments ++ [field name])
  | Opened =>
      exists ws,
        spells ws (write ws) segments /\ read = (write ws ++ "[")%string
  | InIndex value =>
      exists ws digits,
        spells ws (write ws) segments
        /\ wellWritten (bracketed digits) = true
        /\ numeral 0 digits = value
        /\ read = (write ws ++ "[" ++ digits)%string
  | InQuote content =>
      exists ws,
        spells ws (write ws) segments
        /\ charIn "'" content = false
        /\ read = (write ws ++ "['" ++ content)%string
  | QuoteClosed content =>
      exists ws,
        spells ws (write ws) segments
        /\ charIn "'" content = false
        /\ read = (write ws ++ "['" ++ content ++ "'")%string
  | Closed => exists ws, ws <> [] /\ spells ws read segments
  end.

End PathGrammar.

Module SchemaWalker.

Import PathLexer.

(** One piece of a resolved document path: a storage name, to be interned,
    or a list index, to be copied through. *)
Inductive StoragePart : Type :=
| storageName (name : string)
| storageIndex (value : nat).

Inductive ResolveError : Type :=
| UnresolvedPath
| TypeMismatch.

(** The name actually persisted for a child declared under [key]. *)
Definition storageNameOf (key : string) (child : Schema) : string :=
  match savedAs (propsOf child) with
  | Some name => name
  | None => key
  end.

Definition prepend (part : StoragePart)
    (r : ResolveError + (Schema * list StoragePart))
  : ResolveError + (Schema * list StoragePart) :=
  match r with
  | inr (terminal, parts) => inr (terminal, part :: parts)
  | inl e => inl e
  end.

(** Modelled from the spec: [resolve(rootNode, segments)] of section 4.2,
    which is not among the sources.  A field (escaped or not) is looked up
    among the declared keys of a map and emits the child's [savedAs] or
    key; under a record any field is accepted and emits itself; an index is
    legal under a list or a set only.  The alternatives of an [anyOf] are
    tried in declaration order and the first under which the rest of the
    path resolves and the operand is accepted wins.  [accepts] is the
    terminal check of the operation at hand. *)
Fixpoint resolve (accepts : Schema -> bool) (node : Schema)
    (segments : list PathSegment) {struct node}
  : ResolveError + (Schema * list StoragePart) :=
  match node with
  | AnyOfSchema alternatives _ =>
      (fix first (alternatives : list Schema) :=
         match alternatives with
         | [] => inl UnresolvedPath
         | alternative :: others =>
             match resolve accepts alternative segments with
             | inr found => inr found
             | inl TypeMismatch =>
                 match first others with
                 | inr found => inr found
                 | inl _ => inl TypeMismatch
                 end
             | inl UnresolvedPath => first others
             end
         end) alternatives
  | MapSchema attributes _ =>
      match segments with
      | [] => if accepts node then inr (node, []) else inl TypeMismatch
      | (field key | escapedField key) :: rest =>
          (fix lookup (attributes : list (string * Schema)) :=
             match attributes with
             | [] => inl UnresolvedPath
             | (declared, child) :: others =>
                 if String.eqb key declared then
                   prepend (storageName (storageNameOf key child))
                     (resolve accepts child rest)
                 else lookup others
             end) attributes
      | index _ :: _ => inl UnresolvedPath
      end
  | RecordSchema _ elements _ =>
      match segments with
      | [] => if accepts node then inr (node, []) else inl TypeMismatch
      | (field key | escapedField key) :: rest =>
          prepend (storageName key) (resolve accepts elements rest)
      | index _ :: _ => inl UnresolvedPath
      end
  | ListSchema elements _ | SetSchema elements _ =>
      match segments with
      | [] => if accepts node then inr (node, []) else inl TypeMismatch
      | index i :: rest =>
          prepend (storageIndex i) (resolve accepts elements rest)
      | _ :: _ => inl UnresolvedPath
      end
  | _ =>
      match segments with
      | [] => if accepts node then inr (node, []) else inl TypeMismatch
      | _ :: _ => inl UnresolvedPath
      end
  end.

End SchemaWalker.

Module PlaceholderAllocator.

(** The two placeholder tables, in insertion order. *)
Record Tables : Type := {
  names : list (string * string);
  values : list (string * value)
}.

Definition empty : Tables := {| names := []; values := [] |}.

(** Modelled from the spec: the token format of section 4.3: ["#c"],
    respectively [":c"], then the expression id, ["_"] and the ordinal. *)
Definition nameToken (expressionId : string) (ordinal : nat) : string :=
  "#c" ++ expressionId ++ "_" ++ natToString ordinal.

Definition valueToken (expressionId : string) (ordinal : nat) : string :=
  ":c" ++ expressionId ++ "_" ++ natToString ordinal.

Fixpoint tokenOf (storageName : string) (entries : list (string * string))
  : option string :=
  match entries with
  | [] => None
  | (token, name) :: rest =>
      if String.eqb storageName name then Some token
      else tokenOf storageName rest
  end.

(** Modelled from the spec: [allocateName(storageName)] of section 4.3.  A
    name already seen while building the document path keeps its token;
    a new one gets the next ordinal, counted from 1. *)
Definition allocateName (expressionId : string) (storageName : string)
    (tables : Tables) : string * Tables :=
  match tokenOf storageName (names tables) with
  | Some token => (token, tables)
  | None =>
      let token := nameToken expressionId (S (List.length (names tables))) in
      (token, {| names := names tables ++ [(token, storageName)];
                 values := values tables |})
  end.

(** Modelled from the spec: [allocateValue(literal)] of section 4.3: one
    placeholder per literal operand, the ordinals counted from 1. *)
Definition allocateValue (expressionId : string) (literal : value)
    (tables : Tables) : string * Tables :=
  let token := valueToken expressionId (S (List.length (values tables))) in
  (token, {| names := names tables;
             values := values tables ++ [(token, literal)] |}).

(** The tables hold the tokens of ordinals 1, 2, ... in this order. *)
Definition numbered (expressionId : string) (tables : Tables) : Prop :=
  map fst (names tables)
  = map (nameToken expressionId) (seq 1 (List.length (names tables)))
  /\ map fst (values tables)
     = map (valueToken expressionId) (seq 1 (List.length (values tables))).

End PlaceholderAllocator.

Module ExpressionCompiler.

Import PathLexer SchemaWalker PlaceholderAllocator.

Inductive Operator : Type :=
| Equals
| BeginsWith
| Between.

(** The conditions of the suite: [{ attr, eq }], [{ attr, beginsWith }] and
    [{ attr, between: [lower, upper] }]. *)
Inductive Condition : Type :=
| eq_ (attr : string) (operand : value)
| beginsWith (attr : string) (operand : value)
| between (attr : string) (lower upper : value).

Definition attrOf (condition : Condition) : string :=
  match condition with
  | eq_ attr _ | beginsWith attr _ | between attr _ _ => attr
  end.

Definition operatorOf (condition : Condition) : Operator :=
  match condition with
  | eq_ _ _ => Equals
  | beginsWith _ _ => BeginsWith
  | between _ _ _ => Between
  end.

Definition operandsOf (condition : Condition) : list value :=
  match condition with
  | eq_ _ operand | beginsWith _ operand => [operand]
  | between _ lower upper => [lower; upper]
  end.

(** [options]: [expressionId] defaults to the empty string and [transform]
    to [true]. *)
Record Options : Type := {
  expressionId : string;
  transform : bool
}.

Definition defaultOptions : Options :=
  {| expressionId := ""; transform := true |}.

Record CompiledExpression : Type := {
  ConditionExpression : string;
  ExpressionAttributeNames : list (string * string);
  ExpressionAttributeValues : list (string * value)
}.

Inductive CompileError : Type :=
| InvalidExpressionAttributePath
| InvalidInput.

(** Modelled from the spec: the document path of section 4.4: the storage
    names are interned and joined with ['.'], and an index is appended as
    [[n]] directly onto what precedes it, without being interned. *)
Fixpoint compilePath (id : string) (parts : list StoragePart)
    (isFirst : bool) (tables : Tables) : string * Tables :=
  match parts with
  | [] => ("", tables)
  | storageName name :: rest =>
      let (token, tables1) := allocateName id name tables in
      let (tail, tables2) := compilePath id rest false tables1 in
      (((if isFirst then "" else ".") ++ token ++ tail)%string, tables2)
  | storageIndex i :: rest =>
      let (tail, tables1) := compilePath id rest false tables in
      (("[" ++ natToString i ++ "]" ++ tail)%string, tables1)
  end.

Fixpoint allocateValues (id : string) (literals : list value)
    (tables : Tables) : list string * Tables :=
  match literals with
  | [] => ([], tables)
  | literal :: rest =>
      let (token, tables1) := allocateValue id literal tables in
      let (tokens, tables2) := allocateValues id rest tables1 in
      (token :: tokens, tables2)
  end.

(** Modelled from the spec: the operator-specific shapes of section 4.4. *)
Definition render (operator : Operator) (path : string)
    (tokens : list string) : string :=
  match operator with
  | Equals => path ++ " = " ++ nth 0 tokens ""
  | BeginsWith => "begins_with(" ++ path ++ ", " ++ nth 0 tokens "" ++ ")"
  | Between =>
      path ++ " BETWEEN " ++ nth 0 tokens "" ++ " AND " ++ nth 1 tokens ""
  end.

Section Compiler.

(** The collaborators: the value validation/transform pipeline, and the
    kinds each operator declares it accepts. *)
Variable validateValue :
  Schema -> value -> ArrayPath -> DynamoDBToolboxError + value.
Variable transformValue :
  Schema -> value -> ArrayPath -> DynamoDBToolboxError + value.
Variable acceptedKinds : Operator -> Schema -> bool.

(** The terminal check: the node's kind is one the operator accepts, and
    every operand passes the node's validation. *)
Definition accepts (condition : Condition) (node : Schema) : bool :=
  acceptedKinds (operatorOf condition) node
  && forallb
       (fun operand =>
          match validateValue node operand [] with
          | inr _ => true
          | inl _ => false
          end)
       (operandsOf condition).

Fixpoint parseOperands (transform : bool) (node : Schema)
    (operands : list value) : option (list value) :=
  match operands with
  | [] => Some []
  | operand :: rest =>
      match validateValue node operand [] with
      | inl _ => None
      | inr parsed =>
          match (if transform then transformValue node parsed []
                 else inr parsed) with
          | inl _ => None
          | inr literal =>
              option_map (cons literal) (parseOperands transform node rest)
          end
      end
  end.

(** Modelled from the spec: [parse(path, operation, options)] of section
    4.4, which is not among the sources: tokenize the path, resolve it
    against the schema, allocate the name placeholders and then the value
    placeholders, and render.  A path that fails lexing or resolution is an
    [InvalidExpressionAttributePath]; an operand the terminal node refuses
    is an invalid input. *)
Definition parse (root : Schema) (condition : Condition) (options : Options)
  : CompileError + CompiledExpression :=
  match tokenize (attrOf condition) with
  | None => inl InvalidExpressionAttributePath
  | Some segments =>
      match resolve (accepts condition) root segments with
      | inl UnresolvedPath => inl InvalidExpressionAttributePath
      | inl TypeMismatch => inl InvalidInput
      | inr (node, parts) =>
          match parseOperands (transform options) node
                  (operandsOf condition) with
          | None => inl InvalidInput
          | Some literals =>
              let id := expressionId options in
              let (path, tables1) := compilePath id parts true empty in
              let (tokens, tables2) := allocateValues id literals tables1 in
              inr {| ConditionExpression :=
                       render (operatorOf condition) path tokens;
                     ExpressionAttributeNames := names tables2;
                     ExpressionAttributeValues := values tables2 |}
          end
      end
  end.

End Compiler.

(** Every placeholder of a compiled expression. *)
Definition tokensOf (compiled : CompiledExpression) : list string :=
  map fst (ExpressionAttributeNames compiled)
  ++ map fst (ExpressionAttributeValues compiled).

(** A sample table of accepted kinds: equality anywhere, [begins_with] on
    strings and binaries, ranges on numbers, strings and binaries. *)
Definition acceptedKinds_sample (operator : Operator) (node : Schema) : bool :=
  match operator, node with
  | Equals, _ => true
  | BeginsWith, (StringSchema _ | BinarySchema _ | AnySchema _) => true
  | Between,
    (NumberSchema _ | StringSchema _ | BinarySchema _ | AnySchema _) => true
  | _, _ => false
  end.

Definition parse_sample : Schema -> Condition -> Options
                          -> CompileError + CompiledExpression :=
  parse validateValue_sample transformValue_sample acceptedKinds_sample.

End ExpressionCompiler.

(** ** The schemas of the suite *)

(** [item({...})]: the root, a map of attributes with no name of its own. *)
Definition item (attributes : list (string * Schema)) : Schema :=
  MapSchema attributes noProps.

Definition saved (name : string) : SchemaProps := {| savedAs := Some name |}.

Definition schemaWithSavedAs : Schema :=
  item [("savedAs", StringSchema (saved "_s"));
        ("deep", MapSchema [("savedAs", StringSchema (saved "_s"))]
                   (saved "_n"));
        ("listed", ListSchema
                     (MapSchema [("savedAs", StringSchema (saved "_s"))]
                        noProps)
                     (saved "_l"))].

Definition schemaWithSpecChars : Schema :=
  item [("record", RecordSchema (StringSchema noProps) (StringSchema noProps)
                     noProps);
        ("map", MapSchema [("[", StringSchema noProps)] noProps);
        ("]", StringSchema noProps)].

(* ================================================================= *)
(** * Properties *)

(** ** Values and their depth *)

Lemma PropKey_eqb_refl (k : PropKey) : PropKey_eqb k k = true.
Proof. destruct k; simpl; apply String.eqb_refl. Qed.

Lemma depth_lookupProp (k : PropKey) (props : list (PropKey * value)) :
  depth (lookupProp k props)
  <= fold_right (fun kv acc => Nat.max (depth (snd kv)) acc) 0 props.
Proof.
  induction props as [|[k' v] rest IH]; simpl; [lia|].
  destruct (PropKey_eqb k k'); lia.
Qed.

Lemma depth_elemAt (i : nat) (elems : list value) :
  depth (elemAt i elems)
  <= fold_right (fun x acc => Nat.max (depth x) acc) 0 elems.
Proof.
  unfold elemAt. revert i.
  induction elems as [|x rest IH]; intros [|i]; simpl; try lia.
  specialize (IH i). lia.
Qed.

(** Whatever sits in the array under a property lies two levels down. *)
Lemma depth_fallback (input : value) (k : PropKey) (elems : list value)
    (i : nat) :
  getProp input k = VArr elems ->
  depth (elemAt i elems) + 2 <= depth input.
Proof.
  destruct input; simpl; try discriminate.
  intros H. pose proof (depth_lookupProp k props) as Hd.
  rewrite H in Hd. simpl in Hd.
  pose proof (depth_elemAt i elems). lia.
Qed.

(** ** The recursion of [parseReferenceExtension] *)

Section ReferenceProperties.

Variable formatArrayPath : ArrayPath -> option string.
Variable validateValue :
  Schema -> value -> ArrayPath -> DynamoDBToolboxError + value.
Variable transformValue :
  Schema -> value -> ArrayPath -> DynamoDBToolboxError + value.

Local Abbreviation Parser_start := (Parser_start validateValue transformValue).
Local Abbreviation extensionParser :=
  (extensionParser formatArrayPath validateValue transformValue).
Local Abbreviation parseReferenceExtensionF :=
  (parseReferenceExtensionF formatArrayPath validateValue transformValue).
Local Abbreviation parseReferenceExtension_fuel :=
  (parseReferenceExtension_fuel formatArrayPath validateValue transformValue).
Local Abbreviation parseReferenceExtension :=
  (parseReferenceExtension formatArrayPath validateValue transformValue).

(** The body consults [self] on the fallback only, which is strictly
    shallower than the input. *)
Lemma parseReferenceExtensionF_ext (self1 self2 : ExtensionParser)
    (schema : Schema) (inputValue : value) (options : ExtensionParserOptions) :
  (forall s v o, depth v + 2 <= depth inputValue -> self1 s v o = self2 s v o) ->
  parseReferenceExtensionF self1 schema inputValue options
  = parseReferenceExtensionF self2 schema inputValue options.
Proof.
  intros Hself. unfold parseReferenceExtensionF.
  destruct (negb (isGetting inputValue) || isUndefined (getProp inputValue GET));
    [reflexivity|].
  f_equal. unfold extensionParser.
  destruct (getProp inputValue GET) as [| | | | |elems|] eqn:Hrefs;
    try reflexivity.
  destruct (negb (isString (elemAt 0 elems))); [reflexivity|].
  destruct (negb (isUndefined (elemAt 1 elems))); [|reflexivity].
  unfold Parser_start; simpl.
  rewrite (Hself schema (elemAt 1 elems)); [reflexivity|].
  eapply depth_fallback; eassumption.
Qed.

Lemma parseReferenceExtension_fuel_stable (n m : nat) (schema : Schema)
    (inputValue : value) (options : ExtensionParserOptions) :
  depth inputValue < n -> depth inputValue < m ->
  parseReferenceExtension_fuel n schema inputValue options
  = parseReferenceExtension_fuel m schema inputValue options.
Proof.
  revert m schema inputValue options.
  induction n as [|n IH]; intros [|m] schema inputValue options Hn Hm;
    try lia.
  simpl. apply parseReferenceExtensionF_ext.
  intros s v o Hv. apply IH; lia.
Qed.

(** The defining equation of the source: [parseReferenceExtension] is its
    own body with itself installed for the fallback. *)
Lemma parseReferenceExtension_unfold (schema : Schema) (inputValue : value)
    (options : ExtensionParserOptions) :
  parseReferenceExtension schema inputValue options
  = parseReferenceExtensionF parseReferenceExtension
      schema inputValue options.
Proof.
  unfold parseReferenceExtension at 1. simpl.
  apply parseReferenceExtensionF_ext.
  intros s v o Hv. unfold parseReferenceExtension.
  apply parseReferenceExtension_fuel_stable; lia.
Qed.


Lemma guard_isReference (inputValue : value) :
  negb (isGetting inputValue) || isUndefined (getProp inputValue GET)
  = negb (isReference inputValue).
Proof.
  unfold isReference.
  destruct (isGetting inputValue), (isUndefined (getProp inputValue GET));
    reflexivity.
Qed.

Lemma parseReferenceExtension_plain (schema : Schema) (inputValue : value)
    (options : ExtensionParserOptions) :
  isReference inputValue = false ->
  parseReferenceExtension schema inputValue options = NotExtension inputValue.
Proof.
  intros H. rewrite parseReferenceExtension_unfold.
  unfold parseReferenceExtensionF. rewrite guard_isReference, H. reflexivity.
Qed.

Lemma parseReferenceExtension_reference (schema : Schema) (inputValue : value)
    (options : ExtensionParserOptions) :
  isReference inputValue = true ->
  parseReferenceExtension schema inputValue options
  = IsExtension
      (extensionParser parseReferenceExtension schema inputValue
         (transformOf options) (valuePath options)).
Proof.
  intros H. rewrite parseReferenceExtension_unfold.
  unfold parseReferenceExtensionF. rewrite guard_isReference, H. reflexivity.
Qed.

(** The general parser, handed a reference construct, runs the construct's
    own generator. *)
Lemma Parser_start_reference (schema : Schema) (inputValue : value)
    (fill transform : bool) (valuePath : ArrayPath) :
  isReference inputValue = true ->
  Parser_start schema inputValue
    {| opt_fill := fill; opt_transform := transform;
       opt_parseExtension := parseReferenceExtension;
       opt_valuePath := valuePath |}
  = extensionParser parseReferenceExtension schema inputValue
      transform (Some valuePath).
Proof.
  intros H. unfold Parser_start. simpl.
  rewrite parseReferenceExtension_reference by assumption. reflexivity.
Qed.

Lemma isUndefined_false (v : value) : v <> VUndefined -> isUndefined v = false.
Proof. destruct v; simpl; congruence. Qed.

Lemma isUndefined_true (v : value) : isUndefined v = true -> v = VUndefined.
Proof. destruct v; simpl; congruence. Qed.

(** An accepted value goes through the general parser in two phases. *)
Lemma Parser_start_accepted (schema : Schema) (valuePath : ArrayPath)
    (inputValue parsed transformed : value) :
  Accepted validateValue transformValue schema valuePath
    inputValue parsed transformed ->
  Parser_start schema inputValue
    {| opt_fill := false; opt_transform := true;
       opt_parseExtension := parseReferenceExtension;
       opt_valuePath := valuePath |}
  = GYield parsed (GReturn transformed).
Proof.
  induction 1 as [path input parsed transformed Hplain Hval Htr
                 |path input r Href Hget
                 |path input r fallback parsed transformed Href Hget Hfb _ IH].
  - unfold Parser_start. simpl.
    rewrite parseReferenceExtension_plain by assumption.
    rewrite Hval, Htr. reflexivity.
  - rewrite Parser_start_reference by assumption.
    unfold extensionParser. rewrite Hget. reflexivity.
  - rewrite Parser_start_reference by assumption.
    unfold extensionParser. rewrite Hget. cbv zeta.
    change (elemAt 0 [VStr r; fallback]) with (VStr r).
    change (elemAt 1 [VStr r; fallback]) with fallback.
    rewrite (isUndefined_false _ Hfb). cbn [isString negb].
    rewrite <- app_assoc. cbn [app]. rewrite IH. reflexivity.
Qed.


(** So does an accepted reference construct through its own generator. *)
Lemma extensionParser_accepted (schema : Schema) (inputValue : value)
    (valuePath : option ArrayPath) (parsed transformed : value) :
  isReference inputValue = true ->
  Accepted validateValue transformValue schema
    match valuePath with Some p => p | None => [] end
    inputValue parsed transformed ->
  extensionParser parseReferenceExtension schema inputValue true valuePath
  = GYield parsed (GReturn transformed).
Proof.
  intros Href Hacc.
  transitivity
    (extensionParser parseReferenceExtension schema inputValue true
       (Some match valuePath with Some p => p | None => [] end)).
  { destruct valuePath; reflexivity. }
  rewrite <- (Parser_start_reference schema inputValue false true _ Href).
  apply Parser_start_accepted. exact Hacc.
Qed.

Lemma emitReference_emitted (transform : bool) (r : string)
    (fallbackParser : option Generator) :
  Forall (fun out => exists tail, out = VObj [(GET, VArr (VStr r :: tail))])
    (emitted (emitReference transform (VStr r) fallbackParser)).
Proof.
  unfold emitReference, referenceValue.
  destruct fallbackParser as [parser|].
  - destruct (next parser) as [[e|r1] parser1]; simpl; [constructor|].
    destruct transform; simpl.
    + destruct (next parser1) as [[e|r2] parser2]; simpl;
        repeat constructor; eexists; reflexivity.
    + repeat constructor; eexists; reflexivity.
  - destruct transform; simpl; repeat constructor; eexists; reflexivity.
Qed.

(** What the first advancement of [emitReference] raises is what the first
    advancement of the fallback's parser raises. *)
Lemma emitReference_raises (transform : bool) (reference : value)
    (fallbackParser : option Generator) (e : DynamoDBToolboxError) :
  fst (next (emitReference transform reference fallbackParser)) = inl e
  <-> exists parser, fallbackParser = Some parser /\ fst (next parser) = inl e.
Proof.
  unfold emitReference. destruct fallbackParser as [parser|].
  - destruct (next parser) as [[e'|r1] parser1] eqn:Hnext; simpl.
    + split.
      * intros H. exists parser. rewrite Hnext. split; [reflexivity|exact H].
      * intros (p & Hp & He). injection Hp as <-.
        rewrite Hnext in He. exact He.
    + split.
      * destruct transform; simpl; discriminate.
      * intros (p & Hp & He). injection Hp as <-.
        rewrite Hnext in He. discriminate.
  - split.
    + destruct transform; simpl; discriminate.
    + intros (p & Hp & _). discriminate.
Qed.

(** C3.  An input that is not shaped as a reference construct (it is not
    an object with a [$GET] entry, or that entry is [undefined]) is answered
    with [isExtension: false], and [unextendedInput] is the input value
    itself, unchanged. *)
Theorem plain_input_passes_through (schema : Schema) (inputValue : value)
    (options : ExtensionParserOptions) :
  isGetting inputValue = false \/ getProp inputValue GET = VUndefined ->
  isExtension (parseReferenceExtension schema inputValue options) = false
  /\ parseReferenceExtension schema inputValue options
     = NotExtension inputValue.
Proof.
  intros H.
  assert (Hplain : isReference inputValue = false).
  { unfold isReference. destruct H as [H|H]; rewrite H; simpl;
      [reflexivity|apply andb_false_r]. }
  rewrite (parseReferenceExtension_plain schema inputValue options Hplain).
  split; reflexivity.
Qed.


(** C1, as amended.  Take a reference construct.  If its [$GET] value is
    not an array, or is an array whose first element is not a string (the
    empty array included), the first advancement of the generator raises
    [InvalidAttributeInput]; the error carries the formatted path of the
    [$GET] value, respectively of its element 0, the message names that
    path when the formatter gives one, and the payload is the offending
    value.  If the [$GET] value is an array of one or two elements led by a
    string, the first advancement raises exactly when there is a fallback
    whose own parser raises at its first advancement, and it raises that
    very error. *)
Theorem reference_validation_errors (schema : Schema) (inputValue : value)
    (options : ExtensionParserOptions) :
  isReference inputValue = true ->
  exists g,
    parseReferenceExtension schema inputValue options = IsExtension g
    /\ (rejected (getProp inputValue GET) = true ->
        exists e,
          next g = (inl e, GDone)
          /\ code e = InvalidAttributeInput
          /\ path e
             = formatArrayPath
                 (referencesPathOf options
                  ++ if isArray (getProp inputValue GET) then [PNum 0] else [])
          /\ message e
             = ((if isArray (getProp inputValue GET)
                 then "First elements of references "
                 else "References ")
                ++ forAttribute (path e)
                ++ (if isArray (getProp inputValue GET)
                    then "should be strings"
                    else "should be a tuple of one or two elements"))%string
          /\ received e
             = match getProp inputValue GET with
               | VArr elems => elemAt 0 elems
               | references => references
               end)
    /\ (forall elems,
          getProp inputValue GET = VArr elems ->
          isString (elemAt 0 elems) = true ->
          List.length elems <= 2 ->
          forall e,
            fst (next g) = inl e
            <-> elemAt 1 elems <> VUndefined
                /\ fst (next
                     (Parser_start schema (elemAt 1 elems)
                        {| opt_fill := false;
                           opt_transform := transformOf options;
                           opt_parseExtension := parseReferenceExtension;
                           opt_valuePath :=
                             referencesPathOf options ++ [PNum 1] |}))
                   = inl e).
Proof.
  intros Href.
  rewrite (parseReferenceExtension_reference schema inputValue options Href).
  eexists. split; [reflexivity|]. split.
  - unfold rejected, extensionParser, referencesPathOf.
    destruct (getProp inputValue GET) as [| | | | |elems|]; cbv zeta;
      try (intros _; eexists; cbn [isArray]; rewrite ?app_nil_r;
           repeat split; reflexivity).
    intros ->. eexists. cbn [isArray]. repeat split; reflexivity.
  - intros elems Hget Hstr _ e.
    unfold extensionParser. rewrite Hget. cbv zeta.
    rewrite Hstr. cbn [negb].
    rewrite emitReference_raises. fold (referencesPathOf options).
    destruct (isUndefined (elemAt 1 elems)) eqn:Hundef; cbn [negb].
    + split.
      * intros (p & Hp & _). discriminate.
      * intros [Hne _]. apply isUndefined_true in Hundef. contradiction.
    + split.
      * intros (p & Hp & He). injection Hp as <-.
        split; [|exact He]. intros Heq. rewrite Heq in Hundef. discriminate.
      * intros [_ He]. eexists. split; [reflexivity|exact He].
Qed.

(** C4.  On a construct whose [$GET] array is led by the string [r], every
    value the generator hands out, the intermediate one it yields and the
    final one it returns, is an object whose [$GET] array starts with that
    same string [r]: the reference is copied, not resolved.  Without a
    fallback these values are exactly [{ [$GET]: [r] }], twice when
    [transform] is on and once when it is off. *)
Theorem reference_kept_verbatim (schema : Schema) (inputValue : value)
    (options : ExtensionParserOptions) (r : string) (rest : list value) :
  isReference inputValue = true ->
  getProp inputValue GET = VArr (VStr r :: rest) ->
  exists g,
    parseReferenceExtension schema inputValue options = IsExtension g
    /\ Forall
         (fun out => exists tail, out = VObj [(GET, VArr (VStr r :: tail))])
         (emitted g)
    /\ (elemAt 0 rest = VUndefined ->
        emitted g
        = if transformOf options
          then [VObj [(GET, VArr [VStr r])]; VObj [(GET, VArr [VStr r])]]
          else [VObj [(GET, VArr [VStr r])]]).
Proof.
  intros Href Hget.
  rewrite (parseReferenceExtension_reference schema inputValue options Href).
  eexists. split; [reflexivity|].
  unfold extensionParser. rewrite Hget. cbv zeta.
  change (elemAt 0 (VStr r :: rest)) with (VStr r).
  change (elemAt 1 (VStr r :: rest)) with (elemAt 0 rest).
  cbn [isString negb]. split.
  - apply emitReference_emitted.
  - intros ->. cbn [isUndefined negb emitReference].
    destruct (transformOf options); reflexivity.
Qed.

(** A chain of references over an accepted plain value is accepted, at any
    depth. *)
Lemma fallbackChain_accepted (schema : Schema) (last parsed transformed : value) :
  isReference last = false ->
  last <> VUndefined ->
  (forall path, validateValue schema last path = inr parsed) ->
  (forall path, transformValue schema parsed path = inr transformed) ->
  forall (references : list string) (path : ArrayPath),
    Accepted validateValue transformValue schema path
      (fallbackChain references last)
      (fallbackChain references parsed)
      (fallbackChain references transformed).
Proof.
  intros Hplain Hdef Hval Htr.
  induction references as [|r more IH]; intros path.
  - apply Accepted_plain; [exact Hplain|apply Hval|apply Htr].
  - apply (Accepted_fallback validateValue transformValue schema path
             (fallbackChain (r :: more) last) r (fallbackChain more last)).
    + reflexivity.
    + reflexivity.
    + destruct more; simpl; [exact Hdef|discriminate].
    + apply IH.
Qed.

(** The generator built around a fallback parser follows it. *)
Lemma emitReference_follows (transform : bool) (r : string)
    (parser : Generator) :
  follows transform r parser (emitReference transform (VStr r) (Some parser)).
Proof.
  unfold follows, emitReference, wrapFallback, referenceValue.
  destruct (next parser) as [[e|first] parser1]; [reflexivity|].
  destruct transform; [|reflexivity].
  eexists. split; [reflexivity|].
  destruct (next parser1) as [[e|second] parser2]; reflexivity.
Qed.

(** The general parser on a plain value: the validation pipeline, in two
    phases when [transform] is on. *)
Lemma Parser_start_plain (schema : Schema) (inputValue : value)
    (fill transform : bool) (valuePath : ArrayPath) :
  isReference inputValue = false ->
  Parser_start schema inputValue
    {| opt_fill := fill; opt_transform := transform;
       opt_parseExtension := parseReferenceExtension;
       opt_valuePath := valuePath |}
  = match validateValue schema inputValue valuePath with
    | inl e => GThrow e
    | inr parsed =>
        if transform then
          GYield parsed
            match transformValue schema parsed valuePath with
            | inl e => GThrow e
            | inr transformed => GReturn transformed
            end
        else GReturn parsed
    end.
Proof.
  intros H. unfold Parser_start. simpl.
  rewrite parseReferenceExtension_plain by assumption. reflexivity.
Qed.

(** With [transform] off, a chain of references over a plain value that
    passes validation is returned at once, untransformed. *)
Lemma Parser_start_chain_untransformed (schema : Schema)
    (last parsed : value) :
  isReference last = false ->
  last <> VUndefined ->
  (forall path, validateValue schema last path = inr parsed) ->
  forall (references : list string) (valuePath : ArrayPath),
    Parser_start schema (fallbackChain references last)
      {| opt_fill := false; opt_transform := false;
         opt_parseExtension := parseReferenceExtension;
         opt_valuePath := valuePath |}
    = GReturn (fallbackChain references parsed).
Proof.
  intros Hplain Hdef Hval.
  induction references as [|r more IH]; intros valuePath.
  - cbn [fallbackChain]. rewrite Parser_start_plain by assumption.
    rewrite Hval. reflexivity.
  - assert (Hchain : isReference (fallbackChain (r :: more) last) = true)
      by reflexivity.
    rewrite (Parser_start_reference schema _ false false valuePath Hchain).
    unfold extensionParser. cbn [fallbackChain getProp lookupProp].
    assert (Hkey : PropKey_eqb GET GET = true) by reflexivity.
    rewrite Hkey. cbv zeta.
    change (elemAt 0 [VStr r; fallbackChain more last]) with (VStr r).
    change (elemAt 1 [VStr r; fallbackChain more last])
      with (fallbackChain more last).
    assert (Hfb : fallbackChain more last <> VUndefined).
    { destruct more; simpl; [exact Hdef|discriminate]. }
    rewrite (isUndefined_false _ Hfb). cbn [isString negb].
    rewrite IH. reflexivity.
Qed.

(** C2, as amended.  Take a well-formed reference construct, its [$GET]
    value a pair of one or two elements led by the string [r], parsed with
    [transform] on.  Without a fallback the first advancement yields
    [{ [$GET]: [r] }] and the second returns the same.  With a fallback the
    generator follows the fallback's parser advancement for advancement: it
    yields [{ [$GET]: [r, v1] }] and then returns [{ [$GET]: [r, v2] }],
    [v1] and [v2] being what that parser gives at its first and second
    advancement, and where that parser raises, it raises the same error at
    the same advancement.  When the fallback is accepted all the way down
    by the validation pipeline, [v1] is its untransformed and [v2] its
    transformed form. *)
Theorem two_phase_protocol_with_fallback (schema : Schema)
    (inputValue : value) (options : ExtensionParserOptions)
    (elems : list value) :
  isReference inputValue = true ->
  getProp inputValue GET = VArr elems ->
  malformed (VArr elems) = false ->
  transformOf options = true ->
  exists r g,
    elemAt 0 elems = VStr r
    /\ parseReferenceExtension schema inputValue options = IsExtension g
    /\ (elemAt 1 elems = VUndefined ->
        exists g1,
          next g
          = (inr {| result_value := VObj [(GET, VArr [VStr r])];
                    done := false |}, g1)
          /\ next g1
             = (inr {| result_value := VObj [(GET, VArr [VStr r])];
                       done := true |}, GDone))
    /\ (elemAt 1 elems <> VUndefined ->
        follows true r
          (Parser_start schema (elemAt 1 elems)
             {| opt_fill := false;
                opt_transform := true;
                opt_parseExtension := parseReferenceExtension;
                opt_valuePath := referencesPathOf options ++ [PNum 1] |})
          g)
    /\ (forall parsed transformed,
          elemAt 1 elems <> VUndefined ->
          Accepted validateValue transformValue schema
            (referencesPathOf options ++ [PNum 1])
            (elemAt 1 elems) parsed transformed ->
          exists g1,
            next g
            = (inr {| result_value := VObj [(GET, VArr [VStr r; parsed])];
                      done := false |}, g1)
            /\ next g1
               = (inr {| result_value :=
                           VObj [(GET, VArr [VStr r; transformed])];
                         done := true |}, GDone)).
Proof.
  intros Href Hget Hshape Htr.
  assert (Hhead : exists r, elemAt 0 elems = VStr r).
  { destruct elems as [|x rest]; [discriminate|].
    destruct x; try (destruct rest as [|y [|z rest]]; discriminate).
    eexists. reflexivity. }
  destruct Hhead as [r Hhead]. exists r.
  rewrite (parseReferenceExtension_reference schema inputValue options Href),
    Htr.
  eexists. split; [exact Hhead|]. split; [reflexivity|].
  unfold extensionParser. rewrite Hget. cbv zeta. rewrite Hhead.
  cbn [isString negb]. fold (referencesPathOf options).
  split; [|split].
  - intros ->. cbn [isUndefined negb emitReference referenceValue].
    eexists. split; reflexivity.
  - intros Hfb. rewrite (isUndefined_false _ Hfb). cbn [negb].
    apply emitReference_follows.
  - intros parsed transformed Hfb Hacc.
    rewrite (isUndefined_false _ Hfb). cbn [negb].
    rewrite (Parser_start_accepted _ _ _ _ _ Hacc).
    eexists. split; reflexivity.
Qed.


(** C5.  When a construct carries a fallback, the generator follows,
    advancement for advancement, the general parser started on that
    fallback against the same [schema] the construct is parsed against,
    with [fill] off, the construct's [transform], the path of element 1 of
    the [$GET] value, and [parseReferenceExtension] installed as the
    extension.  So a fallback that is itself a reference construct is
    answered by [parseReferenceExtension] again, against the same schema,
    and the construct follows that answer's generator; a plain fallback is
    validated, and with [transform] on transformed, against that same
    schema, its errors raised at the advancement where they occur.  Chains
    of references of any length, ending in a plain value the pipeline
    accepts, are accepted: with [transform] on the chain over the validated
    value is yielded and the chain over the transformed value returned,
    with [transform] off the chain over the validated value is returned at
    once. *)
Theorem fallback_follows_the_general_parser (schema : Schema)
    (inputValue : value) (options : ExtensionParserOptions) (r : string)
    (fallback : value) (rest : list value) :
  isReference inputValue = true ->
  getProp inputValue GET = VArr (VStr r :: fallback :: rest) ->
  fallback <> VUndefined ->
  exists g,
    parseReferenceExtension schema inputValue options = IsExtension g
    /\ follows (transformOf options) r
         (Parser_start schema fallback
            {| opt_fill := false;
               opt_transform := transformOf options;
               opt_parseExtension := parseReferenceExtension;
               opt_valuePath := referencesPathOf options ++ [PNum 1] |})
         g
    /\ (isReference fallback = true ->
        exists inner,
          parseReferenceExtension schema fallback
            {| transform := Some (transformOf options);
               valuePath := Some (referencesPathOf options ++ [PNum 1]) |}
          = IsExtension inner
          /\ follows (transformOf options) r inner g)
    /\ (isReference fallback = false ->
        match validateValue schema fallback
                (referencesPathOf options ++ [PNum 1]) with
        | inl e => next g = (inl e, GDone)
        | inr parsed =>
            if transformOf options then
              exists g1,
                next g
                = (inr {| result_value :=
                            VObj [(GET, VArr [VStr r; parsed])];
                          done := false |}, g1)
                /\ match transformValue schema parsed
                           (referencesPathOf options ++ [PNum 1]) with
                   | inl e => next g1 = (inl e, GDone)
                   | inr transformed =>
                       next g1
                       = (inr {| result_value :=
                                   VObj [(GET, VArr [VStr r; transformed])];
                                 done := true |}, GDone)
                   end
            else
              next g
              = (inr {| result_value := VObj [(GET, VArr [VStr r; parsed])];
                        done := true |}, GDone)
        end)
    /\ (forall (references : list string) (first : string)
          (last parsed transformed : value),
          isReference last = false ->
          last <> VUndefined ->
          (forall path, validateValue schema last path = inr parsed) ->
          (forall path, transformValue schema parsed path = inr transformed) ->
          parseReferenceExtension schema
            (fallbackChain (first :: references) last) options
          = IsExtension
              (if transformOf options then
                 GYield (fallbackChain (first :: references) parsed)
                   (GReturn (fallbackChain (first :: references) transformed))
               else GReturn (fallbackChain (first :: references) parsed))).
Proof.
  intros Href Hget Hfb.
  rewrite (parseReferenceExtension_reference schema inputValue options Href).
  eexists. split; [reflexivity|].
  assert (Hgen :
    extensionParser parseReferenceExtension schema inputValue
      (transformOf options) (valuePath options)
    = emitReference (transformOf options) (VStr r)
        (Some (Parser_start schema fallback
                 {| opt_fill := false;
                    opt_transform := transformOf options;
                    opt_parseExtension := parseReferenceExtension;
                    opt_valuePath := referencesPathOf options ++ [PNum 1] |}))).
  { unfold extensionParser. rewrite Hget. cbv zeta.
    change (elemAt 0 (VStr r :: fallback :: rest)) with (VStr r).
    change (elemAt 1 (VStr r :: fallback :: rest)) with fallback.
    rewrite (isUndefined_false _ Hfb). reflexivity. }
  rewrite Hgen. split; [|split; [|split]].
  - apply emitReference_follows.
  - intros Hnested.
    rewrite (parseReferenceExtension_reference schema fallback _ Hnested).
    eexists. split; [reflexivity|].
    cbn [transformOf transform valuePath].
    rewrite <- (Parser_start_reference schema fallback false
                  (transformOf options) _ Hnested).
    apply emitReference_follows.
  - intros Hplain.
    pose proof (emitReference_follows (transformOf options) r
                  (Parser_start schema fallback
                     {| opt_fill := false;
                        opt_transform := transformOf options;
                        opt_parseExtension := parseReferenceExtension;
                        opt_valuePath :=
                          referencesPathOf options ++ [PNum 1] |}))
      as Hfollows.
    clear Hgen.
    set (g := emitReference (transformOf options) (VStr r) _) in *.
    clearbody g.
    rewrite (Parser_start_plain schema fallback false (transformOf options)
               _ Hplain) in Hfollows.
    unfold follows in Hfollows.
    destruct (validateValue schema fallback
                (referencesPathOf options ++ [PNum 1])) as [e|parsed];
      [exact Hfollows|].
    destruct (transformOf options); cbn [next] in Hfollows;
      [|exact Hfollows].
    destruct Hfollows as (g1 & Hfirst & Hsecond).
    exists g1. split; [exact Hfirst|].
    destruct (transformValue schema parsed
                (referencesPathOf options ++ [PNum 1]));
      exact Hsecond.
  - intros references first last parsed transformed Hplain Hdef Hval Htv.
    assert (Hchain : isReference (fallbackChain (first :: references) last)
                     = true) by reflexivity.
    rewrite (parseReferenceExtension_reference schema _ options Hchain).
    f_equal. destruct (transformOf options) eqn:Htr.
    + apply extensionParser_accepted; [exact Hchain|].
      apply fallbackChain_accepted; assumption.
    + transitivity
        (extensionParser parseReferenceExtension schema
           (fallbackChain (first :: references) last) false
           (Some match valuePath options with Some p => p | None => [] end)).
      { destruct (valuePath options); reflexivity. }
      rewrite <- (Parser_start_reference schema _ false false _ Hchain).
      apply Parser_start_chain_untransformed; assumption.
Qed.


End ReferenceProperties.

(** ** Running the extension on concrete inputs *)

Example parse_reference_with_path :
  parseReferenceExtension_sample (StringSchema noProps)
    (getting (VNum 5))
    {| transform := None; valuePath := Some [PStr "list"; PNum 3] |}
  = IsExtension
      (GThrow {| code := "parsing.invalidAttributeInput";
                 message := "References for attribute 'list[3].$GET' should be a tuple of one or two elements";
                 path := Some "list[3].$GET";
                 received := VNum 5 |}).
Proof. reflexivity. Qed.

Example parse_chain_of_three :
  parseReferenceExtension_sample (StringSchema noProps)
    (fallbackChain ["a"; "b"; "c"] (VStr "dflt")) noOptions
  = IsExtension
      (GYield (fallbackChain ["a"; "b"; "c"] (VStr "dflt"))
         (GReturn (fallbackChain ["a"; "b"; "c"] (VStr "dflt")))).
Proof. reflexivity. Qed.

Example parse_without_transform :
  parseReferenceExtension_sample (NumberSchema noProps)
    (getting (VArr [VStr "count"; VNum 0]))
    {| transform := Some false; valuePath := None |}
  = IsExtension (GReturn (getting (VArr [VStr "count"; VNum 0]))).
Proof. reflexivity. Qed.

Lemma plain_input_passes_through_witness :
  (isGetting (VStr "foo") = false \/ getProp (VStr "foo") GET = VUndefined)
  /\ parseReferenceExtension_sample (StringSchema noProps) (VStr "foo")
       noOptions
     = NotExtension (VStr "foo").
Proof.
  split; [left; reflexivity|].
  apply (plain_input_passes_through
           formatArrayPath_sample validateValue_sample transformValue_sample
           (StringSchema noProps) (VStr "foo") noOptions).
  left; reflexivity.
Defined.


Lemma reference_validation_errors_witness :
  isReference (getting (VNum 5)) = true
  /\ exists g,
       parseReferenceExtension_sample (StringSchema noProps)
         (getting (VNum 5)) noOptions
       = IsExtension g
       /\ exists e,
            next g = (inl e, GDone)
            /\ code e = InvalidAttributeInput
            /\ path e = Some "$GET".
Proof.
  split; [reflexivity|].
  destruct (reference_validation_errors
              formatArrayPath_sample validateValue_sample transformValue_sample
              (StringSchema noProps) (getting (VNum 5)) noOptions eq_refl)
    as (g & Hparse & Hrejected & _).
  exists g. split; [exact Hparse|].
  destruct (Hrejected eq_refl) as (e & Hnext & Hcode & Hpath & _).
  exists e. split; [exact Hnext|]. split; [exact Hcode|exact Hpath].
Defined.

Lemma reference_kept_verbatim_witness :
  isReference (getting (VArr [VStr "a"; VStr "b"])) = true
  /\ exists g,
       parseReferenceExtension_sample (StringSchema noProps)
         (getting (VArr [VStr "a"; VStr "b"])) noOptions
       = IsExtension g
       /\ Forall
            (fun out => exists tail, out = VObj [(GET, VArr (VStr "a" :: tail))])
            (emitted g).
Proof.
  split; [reflexivity|].
  destruct (reference_kept_verbatim
              formatArrayPath_sample validateValue_sample transformValue_sample
              (StringSchema noProps) (getting (VArr [VStr "a"; VStr "b"]))
              noOptions "a" [VStr "b"] eq_refl eq_refl)
    as (g & Hparse & Hall & _).
  exists g. split; [exact Hparse|exact Hall].
Defined.

Lemma two_phase_protocol_with_fallback_witness :
  exists r g,
    elemAt 0 [VStr "a"; VStr "b"] = VStr r
    /\ parseReferenceExtension_sample (StringSchema noProps)
         (getting (VArr [VStr "a"; VStr "b"])) noOptions
       = IsExtension g
    /\ follows true r
         (Parser_start validateValue_sample transformValue_sample
            (StringSchema noProps) (VStr "b")
            {| opt_fill := false;
               opt_transform := true;
               opt_parseExtension := parseReferenceExtension_sample;
               opt_valuePath := [PStr "$GET"; PNum 1] |})
         g.
Proof.
  destruct (two_phase_protocol_with_fallback
              formatArrayPath_sample validateValue_sample transformValue_sample
              (StringSchema noProps) (getting (VArr [VStr "a"; VStr "b"]))
              noOptions [VStr "a"; VStr "b"]
              eq_refl eq_refl eq_refl eq_refl)
    as (r & g & Hhead & Hparse & _ & Hfollows & _).
  exists r, g. split; [exact Hhead|]. split; [exact Hparse|].
  apply Hfollows. discriminate.
Defined.

Lemma fallback_follows_the_general_parser_witness :
  exists g,
    parseReferenceExtension_sample (StringSchema noProps)
      (getting (VArr [VStr "a"; getting (VArr [VStr "b"; VStr "c"])]))
      {| transform := Some false; valuePath := None |}
    = IsExtension g
    /\ exists inner,
         parseReferenceExtension_sample (StringSchema noProps)
           (getting (VArr [VStr "b"; VStr "c"]))
           {| transform := Some false;
              valuePath := Some [PStr "$GET"; PNum 1] |}
         = IsExtension inner
         /\ follows false "a" inner g.
Proof.
  destruct (fallback_follows_the_general_parser
              formatArrayPath_sample validateValue_sample transformValue_sample
              (StringSchema noProps)
              (getting (VArr [VStr "a"; getting (VArr [VStr "b"; VStr "c"])]))
              {| transform := Some false; valuePath := None |}
              "a" (getting (VArr [VStr "b"; VStr "c"])) []
              eq_refl eq_refl ltac:(discriminate))
    as (g & Hparse & _ & Hnested & _).
  exists g. split; [exact Hparse|]. exact (Hnested eq_refl).
Defined.

(** C2, as stated, fails: a pair of two elements led by a string is well
    formed, and with [transform] on its first advancement raises, and so
    yields nothing, when the fallback is a malformed reference or a value
    the schema refuses. *)
Lemma two_phase_protocol_fails_on_a_refused_fallback :
  (isReference (getting (VArr [VStr "a"; getting (VNum 5)])) = true
   /\ malformed (getProp (getting (VArr [VStr "a"; getting (VNum 5)])) GET)
      = false
   /\ transformOf noOptions = true
   /\ exists g e,
        parseReferenceExtension_sample (StringSchema noProps)
          (getting (VArr [VStr "a"; getting (VNum 5)])) noOptions
        = IsExtension g
        /\ next g = (inl e, GDone))
  /\ (isReference (getting (VArr [VStr "a"; VNum 5])) = true
      /\ malformed (getProp (getting (VArr [VStr "a"; VNum 5])) GET) = false
      /\ transformOf noOptions = true
      /\ exists g e,
           parseReferenceExtension_sample (StringSchema noProps)
             (getting (VArr [VStr "a"; VNum 5])) noOptions
           = IsExtension g
           /\ next g = (inl e, GDone)).
Proof.
  split; (split; [reflexivity|]; split; [reflexivity|];
          split; [reflexivity|]; eexists; eexists; split; reflexivity).
Qed.



(** C1, as stated, fails both ways.  A pair of two elements led by a string
    is well formed in the specification's sense, yet its first advancement
    raises [InvalidAttributeInput] when its fallback is a malformed
    reference; and an array of three elements is malformed in that sense,
    yet nothing is raised. *)
Lemma malformed_iff_raises_fails :
  (isReference (getting (VArr [VStr "a"; getting (VNum 5)])) = true
   /\ malformed (getProp (getting (VArr [VStr "a"; getting (VNum 5)])) GET)
      = false
   /\ exists g,
        parseReferenceExtension_sample (StringSchema noProps)
          (getting (VArr [VStr "a"; getting (VNum 5)])) noOptions
        = IsExtension g
        /\ raises g InvalidAttributeInput)
  /\ (isReference (getting (VArr [VStr "a"; VStr "b"; VStr "c"])) = true
      /\ malformed
           (getProp (getting (VArr [VStr "a"; VStr "b"; VStr "c"])) GET)
         = true
      /\ exists g,
           parseReferenceExtension_sample (StringSchema noProps)
             (getting (VArr [VStr "a"; VStr "b"; VStr "c"])) noOptions
           = IsExtension g
           /\ ~ raises g InvalidAttributeInput).
Proof.
  split.
  - split; [reflexivity|]. split; [reflexivity|].
    eexists. split; [reflexivity|].
    eexists. split; reflexivity.
  - split; [reflexivity|]. split; [reflexivity|].
    eexists. split; [reflexivity|].
    intros (e & Hnext & _). discriminate Hnext.
Qed.

(** ** Lightening *)

(** C10.  [light], [lightTuple] and [lightObj] hand back their argument,
    the tuple of their arguments, respectively their object, as it is. *)
Theorem lighteners_are_identities :
  (forall schema : Schema, Lightener.light schema = schema)
  /\ (forall schemas : list Schema, Lightener.lightTuple schemas = schemas)
  /\ (forall schemas : list (string * Schema),
        Lightener.lightObj schemas = schemas).
Proof. repeat split. Qed.

(* ================================================================= *)
(** ** Strings *)

Lemma string_app_assoc (a b c : string) :
  ((a ++ b) ++ c = a ++ (b ++ c))%string.
Proof. induction a as [|x a IH]; simpl; [reflexivity|rewrite IH; reflexivity]. Qed.

Lemma charIn_cons (c x : ascii) (s : string) :
  charIn c (String x s) = Ascii.eqb c x || charIn c s.
Proof. reflexivity. Qed.

Lemma charIn_app (c : ascii) (a b : string) :
  charIn c (a ++ b) = charIn c a || charIn c b.
Proof.
  induction a as [|x a IH]; [reflexivity|].
  change (String x a ++ b)%string with (String x (a ++ b)).
  rewrite !charIn_cons, IH. apply orb_assoc.
Qed.

Lemma string_of_uint_digits (u : Decimal.uint) :
  charIn "_" (NilEmpty.string_of_uint u) = false.
Proof. induction u; simpl; try rewrite charIn_cons; simpl; auto. Qed.

Lemma natToString_digits (n : nat) : charIn "_" (natToString n) = false.
Proof. apply string_of_uint_digits. Qed.

(** A string ending in ["_"] and digits splits in one way only: at its last
    underscore. *)
Lemma split_at_last_underscore (a b x y : string) :
  charIn "_" x = false -> charIn "_" y = false ->
  (a ++ "_" ++ x = b ++ "_" ++ y)%string -> a = b.
Proof.
  intros Hx Hy. revert b.
  induction a as [|c a IH]; intros [|d b] H; simpl in H.
  - reflexivity.
  - injection H as Hc Hrest. subst x.
    rewrite charIn_app in Hx. simpl in Hx.
    rewrite orb_true_r in Hx. discriminate.
  - injection H as Hc Hrest. subst y.
    rewrite charIn_app in Hy. simpl in Hy.
    rewrite orb_true_r in Hy. discriminate.
  - injection H as Hc Hrest. subst d. f_equal. apply IH. exact Hrest.
Qed.

(* ================================================================= *)
(** ** Placeholder tokens *)

Section Tokens.

Import PlaceholderAllocator.

Lemma nameToken_id (id1 id2 : string) (n1 n2 : nat) :
  nameToken id1 n1 = nameToken id2 n2 -> id1 = id2.
Proof.
  unfold nameToken. intros H. simpl in H. injection H as H.
  eapply split_at_last_underscore; [| |exact H]; apply natToString_digits.
Qed.

Lemma valueToken_id (id1 id2 : string) (n1 n2 : nat) :
  valueToken id1 n1 = valueToken id2 n2 -> id1 = id2.
Proof.
  unfold valueToken. intros H. simpl in H. injection H as H.
  eapply split_at_last_underscore; [| |exact H]; apply natToString_digits.
Qed.

Lemma nameToken_not_valueToken (id1 id2 : string) (n1 n2 : nat) :
  nameToken id1 n1 <> valueToken id2 n2.
Proof. unfold nameToken, valueToken. simpl. discriminate. Qed.

Lemma numbered_empty (id : string) : numbered id empty.
Proof. split; reflexivity. Qed.

Lemma map_seq_snoc (f : nat -> string) (n : nat) :
  map f (seq 1 n) ++ [f (S n)] = map f (seq 1 (S n)).
Proof. rewrite seq_S, map_app. reflexivity. Qed.

Lemma allocateName_numbered (id name : string) (tables : Tables) :
  numbered id tables -> numbered id (snd (allocateName id name tables)).
Proof.
  intros [Hn Hv]. unfold allocateName.
  destruct (tokenOf name (names tables)); simpl; [split; assumption|].
  split; simpl; [|exact Hv].
  rewrite map_app, length_app, Hn. simpl. rewrite Nat.add_1_r.
  apply map_seq_snoc.
Qed.

Lemma allocateValue_numbered (id : string) (literal : value)
    (tables : Tables) :
  numbered id tables -> numbered id (snd (allocateValue id literal tables)).
Proof.
  intros [Hn Hv]. unfold allocateValue. split; simpl; [exact Hn|].
  rewrite map_app, length_app, Hv. simpl. rewrite Nat.add_1_r.
  apply map_seq_snoc.
Qed.

End Tokens.

(* ================================================================= *)
(** ** The expression compiler *)

Section CompilerProperties.

Import PathLexer SchemaWalker PlaceholderAllocator ExpressionCompiler.

Lemma compilePath_numbered (id : string) (parts : list StoragePart) :
  forall (isFirst : bool) (tables : Tables),
    numbered id tables ->
    numbered id (snd (compilePath id parts isFirst tables)).
Proof.
  induction parts as [|[name|i] rest IH]; intros isFirst tables H; simpl.
  - exact H.
  - pose proof (allocateName_numbered id name tables H) as H1.
    destruct (allocateName id name tables) as [token tables1].
    specialize (IH false tables1 H1).
    destruct (compilePath id rest false tables1) as [tail tables2].
    exact IH.
  - specialize (IH false tables H).
    destruct (compilePath id rest false tables) as [tail tables1].
    exact IH.
Qed.

Lemma allocateValues_numbered (id : string) (literals : list value) :
  forall tables : Tables,
    numbered id tables ->
    numbered id (snd (allocateValues id literals tables)).
Proof.
  induction literals as [|literal rest IH]; intros tables H;
    cbn [allocateValues].
  - exact H.
  - pose proof (allocateValue_numbered id literal tables H) as H1.
    destruct (allocateValue id literal tables) as [token tables1].
    specialize (IH tables1 H1).
    destruct (allocateValues id rest tables1) as [tokens tables2].
    exact IH.
Qed.

(** Interning a path leaves the value table alone, and every name it adds
    is the storage name of a named part of the path: an index adds none. *)
Lemma compilePath_names (id : string) (parts : list StoragePart) :
  forall (isFirst : bool) (tables : Tables),
    values (snd (compilePath id parts isFirst tables)) = values tables
    /\ forall entry,
         In entry (names (snd (compilePath id parts isFirst tables))) ->
         In entry (names tables) \/ In (storageName (snd entry)) parts.
Proof.
  induction parts as [|[name|i] rest IH]; intros isFirst tables; simpl.
  - split; [reflexivity|]. intros entry H. left. exact H.
  - unfold allocateName.
    destruct (tokenOf name (names tables)) as [token|].
    + specialize (IH false tables).
      destruct (compilePath id rest false tables) as [tail tables2].
      destruct IH as [Hv Hn]. split; [exact Hv|].
      intros entry H. destruct (Hn entry H) as [Hin|Hin]; auto.
    + match goal with
      | |- context [compilePath id rest false ?t] =>
          specialize (IH false t);
          destruct (compilePath id rest false t) as [tail tables2]
      end.
      destruct IH as [Hv Hn]. split; [exact Hv|].
      intros entry H. destruct (Hn entry H) as [Hin|Hin]; [|auto].
      simpl in Hin. apply in_app_or in Hin.
      destruct Hin as [Hin|[<-|[]]]; auto.
  - specialize (IH false tables).
    destruct (compilePath id rest false tables) as [tail tables1].
    destruct IH as [Hv Hn]. split; [exact Hv|].
    intros entry H. destruct (Hn entry H) as [Hin|Hin]; auto.
Qed.

Lemma allocateValues_names (id : string) (literals : list value) :
  forall tables : Tables,
    names (snd (allocateValues id literals tables)) = names tables.
Proof.
  induction literals as [|literal rest IH]; intros tables;
    cbn [allocateValues].
  - reflexivity.
  - specialize (IH (snd (allocateValue id literal tables))).
    destruct (allocateValue id literal tables) as [token tables1] eqn:Halloc.
    unfold allocateValue in Halloc. injection Halloc as _ <-.
    destruct (allocateValues id rest _) as [tokens tables2].
    exact IH.
Qed.

Variable validateValue :
  Schema -> value -> ArrayPath -> DynamoDBToolboxError + value.
Variable transformValue :
  Schema -> value -> ArrayPath -> DynamoDBToolboxError + value.
Variable acceptedKinds : Operator -> Schema -> bool.

Local Abbreviation parse :=
  (ExpressionCompiler.parse validateValue transformValue acceptedKinds).
Local Abbreviation accepts := (ExpressionCompiler.accepts validateValue acceptedKinds).

(** What a successful compile call went through. *)
Lemma parse_inr (root : Schema) (condition : Condition) (options : Options)
    (compiled : CompiledExpression) :
  parse root condition options = inr compiled ->
  exists segments node parts literals,
    tokenize (attrOf condition) = Some segments
    /\ resolve (accepts condition) root segments = inr (node, parts)
    /\ let tables1 :=
         snd (compilePath (expressionId options) parts true empty) in
       let tables2 :=
         snd (allocateValues (expressionId options) literals tables1) in
       ExpressionAttributeNames compiled = names tables2
       /\ ExpressionAttributeValues compiled = values tables2.
Proof.
  unfold ExpressionCompiler.parse. intros H.
  destruct (tokenize (attrOf condition)) as [segments|] eqn:Htok;
    [|discriminate].
  destruct (resolve _ root segments) as [[|]|[node parts]] eqn:Hres;
    try discriminate.
  destruct (parseOperands _ _ _ node _) as [literals|]; [|discriminate].
  exists segments, node, parts, literals.
  split; [reflexivity|]. split; [exact Hres|].
  cbv zeta in *.
  destruct (compilePath (expressionId options) parts true empty)
    as [path tables1].
  cbn [snd].
  destruct (allocateValues (expressionId options) literals tables1)
    as [tokens tables2].
  injection H as <-. split; reflexivity.
Qed.

Lemma parse_numbered (root : Schema) (condition : Condition)
    (options : Options) (compiled : CompiledExpression) :
  parse root condition options = inr compiled ->
  map fst (ExpressionAttributeNames compiled)
  = map (nameToken (expressionId options))
      (seq 1 (List.length (ExpressionAttributeNames compiled)))
  /\ map fst (ExpressionAttributeValues compiled)
     = map (valueToken (expressionId options))
         (seq 1 (List.length (ExpressionAttributeValues compiled))).
Proof.
  intros H.
  destruct (parse_inr root condition options compiled H)
    as (segments & node & parts & literals & _ & _ & Hn & Hv).
  rewrite Hn, Hv.
  apply allocateValues_numbered, compilePath_numbered, numbered_empty.
Qed.

Lemma tokensOf_shape (root : Schema) (condition : Condition)
    (options : Options) (compiled : CompiledExpression) (token : string) :
  parse root condition options = inr compiled ->
  In token (tokensOf compiled) ->
  exists ordinal,
    1 <= ordinal
    /\ (token = nameToken (expressionId options) ordinal
        \/ token = valueToken (expressionId options) ordinal).
Proof.
  intros H Hin. destruct (parse_numbered root condition options compiled H)
    as [Hn Hv].
  unfold tokensOf in Hin. rewrite Hn, Hv in Hin.
  apply in_app_or in Hin.
  destruct Hin as [Hin|Hin]; apply in_map_iff in Hin;
    destruct Hin as (ordinal & <- & Hseq); apply in_seq in Hseq;
    exists ordinal; (split; [lia|auto]).
Qed.

End CompilerProperties.

(** C6.  On [listed: list(map({ savedAs: string().savedAs('_s') })).savedAs('_l')]
    the condition [{ attr: 'listed[4].savedAs', beginsWith: 'foo' }] compiles
    to exactly [begins_with(#c_1[4].#c_2, :c_1)] with the names
    [{ #c_1: '_l', #c_2: '_s' }] and the values [{ :c_1: 'foo' }].  The
    path lexes to the field [listed], the index [4] and the field
    [savedAs]; and in every compiled expression each name placeholder stands
    for the storage name of a named part of the resolved path, so that an
    index is never interned. *)
Theorem listed_index_is_inlined :
  ExpressionCompiler.parse_sample schemaWithSavedAs
    (ExpressionCompiler.beginsWith "listed[4].savedAs" (VStr "foo"))
    ExpressionCompiler.defaultOptions
  = inr {| ExpressionCompiler.ConditionExpression :=
             "begins_with(#c_1[4].#c_2, :c_1)";
           ExpressionCompiler.ExpressionAttributeNames :=
             [("#c_1", "_l"); ("#c_2", "_s")];
           ExpressionCompiler.ExpressionAttributeValues :=
             [(":c_1", VStr "foo")] |}
  /\ PathLexer.tokenize "listed[4].savedAs"
     = Some [PathLexer.field "listed"; PathLexer.index 4;
             PathLexer.field "savedAs"]
  /\ forall validateValue transformValue acceptedKinds
       (root : Schema) (condition : ExpressionCompiler.Condition)
       (options : ExpressionCompiler.Options)
       (compiled : ExpressionCompiler.CompiledExpression)
       (token name : string),
       ExpressionCompiler.parse validateValue transformValue acceptedKinds
         root condition options = inr compiled ->
       In (token, name)
         (ExpressionCompiler.ExpressionAttributeNames compiled) ->
       exists segments node parts,
         PathLexer.tokenize (ExpressionCompiler.attrOf condition)
         = Some segments
         /\ SchemaWalker.resolve
              (ExpressionCompiler.accepts validateValue acceptedKinds condition)
              root segments
            = inr (node, parts)
         /\ In (SchemaWalker.storageName name) parts.
Proof.
  split; [reflexivity|]. split; [reflexivity|].
  intros validateValue transformValue acceptedKinds root condition options
    compiled token name Hparse Hin.
  destruct (parse_inr validateValue transformValue acceptedKinds
              root condition options compiled Hparse)
    as (segments & node & parts & literals & Htok & Hres & Hn & _).
  exists segments, node, parts.
  split; [exact Htok|]. split; [exact Hres|].
  rewrite Hn, allocateValues_names in Hin.
  destruct (compilePath_names (ExpressionCompiler.expressionId options)
              parts true PlaceholderAllocator.empty) as [_ Hnames].
  destruct (Hnames (token, name) Hin) as [[]|Hpart]. exact Hpart.
Qed.

Lemma listed_index_is_inlined_witness :
  exists segments node parts,
    PathLexer.tokenize "listed[4].savedAs" = Some segments
    /\ SchemaWalker.resolve
         (ExpressionCompiler.accepts validateValue_sample
            ExpressionCompiler.acceptedKinds_sample
            (ExpressionCompiler.beginsWith "listed[4].savedAs" (VStr "foo")))
         schemaWithSavedAs segments
       = inr (node, parts)
    /\ In (SchemaWalker.storageName "_l") parts.
Proof.
  apply (proj2 (proj2 listed_index_is_inlined)
           validateValue_sample transformValue_sample
           ExpressionCompiler.acceptedKinds_sample
           schemaWithSavedAs
           (ExpressionCompiler.beginsWith "listed[4].savedAs" (VStr "foo"))
           ExpressionCompiler.defaultOptions
           {| ExpressionCompiler.ConditionExpression :=
                "begins_with(#c_1[4].#c_2, :c_1)";
              ExpressionCompiler.ExpressionAttributeNames :=
                [("#c_1", "_l"); ("#c_2", "_s")];
              ExpressionCompiler.ExpressionAttributeValues :=
                [(":c_1", VStr "foo")] |}
           "#c_1" "_l").
  - reflexivity.
  - simpl. left. reflexivity.
Defined.

(** C7.  In every compiled expression the name placeholders are, in
    allocation order, the name tokens of ordinals 1, 2, ..., and the value
    placeholders the value tokens of ordinals 1, 2, ..., both under the
    expression id of the call: the ordinals start at 1 and increase
    strictly.  With [expressionId: '1'] the root [savedAs]/[beginsWith]
    scenario compiles to the tokens [#c1_1] and [:c1_1].  Two compile calls
    under different expression ids have no token in common. *)
Theorem placeholder_ordinals_per_expression_id :
  (forall validateValue transformValue acceptedKinds
     (root : Schema) (condition : ExpressionCompiler.Condition)
     (options : ExpressionCompiler.Options)
     (compiled : ExpressionCompiler.CompiledExpression),
     ExpressionCompiler.parse validateValue transformValue acceptedKinds
       root condition options = inr compiled ->
     map fst (ExpressionCompiler.ExpressionAttributeNames compiled)
     = map (PlaceholderAllocator.nameToken
              (ExpressionCompiler.expressionId options))
         (seq 1 (List.length
                   (ExpressionCompiler.ExpressionAttributeNames compiled)))
     /\ map fst (ExpressionCompiler.ExpressionAttributeValues compiled)
        = map (PlaceholderAllocator.valueToken
                 (ExpressionCompiler.expressionId options))
            (seq 1 (List.length
                      (ExpressionCompiler.ExpressionAttributeValues compiled))))
  /\ ExpressionCompiler.parse_sample schemaWithSavedAs
       (ExpressionCompiler.beginsWith "savedAs" (VStr "foo"))
       {| ExpressionCompiler.expressionId := "1";
          ExpressionCompiler.transform := true |}
     = inr {| ExpressionCompiler.ConditionExpression :=
                "begins_with(#c1_1, :c1_1)";
              ExpressionCompiler.ExpressionAttributeNames := [("#c1_1", "_s")];
              ExpressionCompiler.ExpressionAttributeValues :=
                [(":c1_1", VStr "foo")] |}
  /\ (forall validateValue transformValue acceptedKinds
        (root1 root2 : Schema)
        (condition1 condition2 : ExpressionCompiler.Condition)
        (options1 options2 : ExpressionCompiler.Options)
        (compiled1 compiled2 : ExpressionCompiler.CompiledExpression)
        (token : string),
        ExpressionCompiler.parse validateValue transformValue acceptedKinds
          root1 condition1 options1 = inr compiled1 ->
        ExpressionCompiler.parse validateValue transformValue acceptedKinds
          root2 condition2 options2 = inr compiled2 ->
        ExpressionCompiler.expressionId options1
        <> ExpressionCompiler.expressionId options2 ->
        In token (ExpressionCompiler.tokensOf compiled1) ->
        ~ In token (ExpressionCompiler.tokensOf compiled2)).
Proof.
  split; [|split].
  - intros validateValue transformValue acceptedKinds root condition options
      compiled H.
    exact (parse_numbered validateValue transformValue acceptedKinds
             root condition options compiled H).
  - reflexivity.
  - intros validateValue transformValue acceptedKinds root1 root2
      condition1 condition2 options1 options2 compiled1 compiled2 token
      H1 H2 Hid Hin1 Hin2.
    destruct (tokensOf_shape validateValue transformValue acceptedKinds
                root1 condition1 options1 compiled1 token H1 Hin1)
      as (n1 & _ & Hshape1).
    destruct (tokensOf_shape validateValue transformValue acceptedKinds
                root2 condition2 options2 compiled2 token H2 Hin2)
      as (n2 & _ & Hshape2).
    destruct Hshape1 as [-> | ->], Hshape2 as [Heq|Heq].
    + apply Hid. eapply nameToken_id. exact Heq.
    + eapply nameToken_not_valueToken. exact Heq.
    + eapply nameToken_not_valueToken. symmetry. exact Heq.
    + apply Hid. eapply valueToken_id. exact Heq.
Qed.

Lemma placeholder_ordinals_per_expression_id_witness :
  map fst [("#c_1", "_n"); ("#c_2", "_s")]
  = map (PlaceholderAllocator.nameToken "") (seq 1 2)
  /\ map fst [(":c_1", VStr "foo")]
     = map (PlaceholderAllocator.valueToken "") (seq 1 1).
Proof.
  apply (proj1 placeholder_ordinals_per_expression_id
           validateValue_sample transformValue_sample
           ExpressionCompiler.acceptedKinds_sample
           schemaWithSavedAs
           (ExpressionCompiler.beginsWith "deep.savedAs" (VStr "foo"))
           ExpressionCompiler.defaultOptions
           {| ExpressionCompiler.ConditionExpression :=
                "begins_with(#c_1.#c_2, :c_1)";
              ExpressionCompiler.ExpressionAttributeNames :=
                [("#c_1", "_n"); ("#c_2", "_s")];
              ExpressionCompiler.ExpressionAttributeValues :=
                [(":c_1", VStr "foo")] |}).
  reflexivity.
Defined.

(* ================================================================= *)
(** ** The path lexer *)

Section LexerProperties.

Import PathLexer.

Lemma string_app_nil_r (s : string) : (s ++ "")%string = s.
Proof. induction s as [|c s IH]; simpl; [reflexivity|rewrite IH; reflexivity]. Qed.

Lemma feed_app (s1 s2 : string) :
  forall (st : State) (segments : list PathSegment),
    feed st segments (s1 ++ s2)
    = match feed st segments s1 with
      | Some (st', segments') => feed st' segments' s2
      | None => None
      end.
Proof.
  induction s1 as [|c s1 IH]; intros st segments; simpl; [reflexivity|].
  destruct (step st c) as [[st' completed]|]; [apply IH|reflexivity].
Qed.

(** A path that lexes leaves the lexer in a state where a path may end. *)
Lemma tokenize_inv (path : string) (segments : list PathSegment) :
  tokenize path = Some segments ->
  exists st read last,
    feed Start [] path = Some (st, read)
    /\ finish st = Some last
    /\ segments = read ++ last.
Proof.
  unfold tokenize. intros H.
  destruct (feed Start [] path) as [[st read]|]; [|discriminate].
  destruct (finish st) as [last|] eqn:Hfinish; [|discriminate].
  injection H as <-. exists st, read, last. repeat split. exact Hfinish.
Qed.

Lemma tokenize_app (pre rest : string) (st : State)
    (read : list PathSegment) :
  feed Start [] pre = Some (st, read) ->
  tokenize (pre ++ rest)
  = match feed st read rest with
    | Some (st', segments) =>
        match finish st' with
        | Some last => Some (segments ++ last)
        | None => None
        end
    | None => None
    end.
Proof. intros H. unfold tokenize. rewrite feed_app, H. reflexivity. Qed.

Lemma finish_closing (st : State) (last : list PathSegment) :
  finish st = Some last -> step st "]" = None.
Proof. destruct st; simpl; intros H; try discriminate; reflexivity. Qed.

Lemma finish_dot (st : State) (last : list PathSegment) :
  finish st = Some last ->
  step st "." = None \/ exists completed, step st "." = Some (AfterDot, completed).
Proof.
  destruct st; simpl; intros H; try discriminate;
    [left; reflexivity|right; eexists; reflexivity..].
Qed.

Lemma finish_opening (st : State) (last : list PathSegment) :
  finish st = Some last -> step st "[" = Some (Opened, last).
Proof.
  destruct st; simpl; intros H; try discriminate;
    injection H as <-; reflexivity.
Qed.

Lemma feed_quoted (key : string) :
  charIn "'" key = false ->
  forall (content : string) (segments : list PathSegment),
    feed (InQuote content) segments key
    = Some (InQuote (content ++ key), segments).
Proof.
  induction key as [|c key IH]; intros Hkey content segments; simpl.
  - rewrite string_app_nil_r. reflexivity.
  - rewrite charIn_cons in Hkey. apply orb_false_elim in Hkey.
    destruct Hkey as [Hc Hkey].
    rewrite Ascii.eqb_sym, Hc, app_nil_r, (IH Hkey).
    unfold snoc. rewrite string_app_assoc. reflexivity.
Qed.

End LexerProperties.

(* ================================================================= *)
(** ** The lexer and the grammar *)

Section GrammarProperties.

Import PathLexer PathGrammar.

Lemma isReserved_false (c : ascii) :
  isReserved c = false ->
  Ascii.eqb c "." = false /\ Ascii.eqb c "[" = false /\ Ascii.eqb c "]" = false.
Proof.
  unfold isReserved, charIn. simpl. intros H.
  apply orb_false_elim in H. destruct H as [H1 H].
  apply orb_false_elim in H. destruct H as [H2 H].
  apply orb_false_elim in H. destruct H as [H3 _].
  repeat split; assumption.
Qed.

Lemma isReserved_intro (c : ascii) :
  Ascii.eqb c "." = false -> Ascii.eqb c "[" = false ->
  Ascii.eqb c "]" = false -> isReserved c = false.
Proof.
  intros H1 H2 H3. unfold isReserved, charIn. simpl.
  rewrite H1, H2, H3. reflexivity.
Qed.

Lemma list_ascii_of_string_app (a b : string) :
  list_ascii_of_string (a ++ b)
  = list_ascii_of_string a ++ list_ascii_of_string b.
Proof. induction a as [|c a IH]; simpl; [reflexivity|rewrite IH; reflexivity]. Qed.

Lemma noneReserved_snoc (name : string) (c : ascii) :
  noneReserved (snoc name c) = noneReserved name && negb (isReserved c).
Proof.
  unfold noneReserved, snoc.
  rewrite list_ascii_of_string_app, forallb_app. simpl.
  rewrite andb_true_r. reflexivity.
Qed.

Lemma allDigits_snoc (digits : string) (c : ascii) :
  allDigits (snoc digits c) = allDigits digits && isDigit c.
Proof.
  unfold allDigits, snoc.
  rewrite list_ascii_of_string_app, forallb_app. simpl.
  rewrite andb_true_r. reflexivity.
Qed.

Lemma isEmpty_snoc (s : string) (c : ascii) : isEmpty (snoc s c) = false.
Proof. destruct s; reflexivity. Qed.

Lemma numeral_snoc (digits : string) (c : ascii) :
  forall value,
    numeral value (snoc digits c) = 10 * numeral value digits + digitValue c.
Proof.
  induction digits as [|d digits IH]; intros value; [reflexivity|].
  cbn [snoc append numeral]. apply IH.
Qed.

Lemma writeRest_app (a b : list Written) :
  writeRest (a ++ b) = (writeRest a ++ writeRest b)%string.
Proof.
  induction a as [|[name|digits|content] a IH]; [reflexivity|..];
    cbn [app writeRest]; rewrite IH; cbn [append];
    rewrite ?string_app_assoc; cbn [append];
    rewrite ?string_app_assoc; reflexivity.
Qed.

(** A segment added after others is written by [writeRest]. *)
Lemma write_snoc (ws : list Written) (w : Written) :
  ws <> [] -> write (ws ++ [w]) = (write ws ++ writeRest [w])%string.
Proof.
  destruct ws as [|[name|digits|content] ws]; [congruence|..]; intros _;
    cbn [app write writeRest]; rewrite writeRest_app;
    repeat (rewrite string_app_assoc || cbn [append]); reflexivity.
Qed.

(** A bracketed segment is written the same way in first position. *)
Lemma write_snoc_bracketed (ws : list Written) (digits : string) :
  write (ws ++ [bracketed digits])
  = (write ws ++ "[" ++ digits ++ "]")%string.
Proof.
  destruct ws as [|w ws].
  - cbn. rewrite ?string_app_nil_r. reflexivity.
  - rewrite write_snoc by discriminate. cbn [writeRest].
    rewrite ?string_app_nil_r. reflexivity.
Qed.

Lemma write_snoc_quoted (ws : list Written) (content : string) :
  write (ws ++ [quoted content])
  = (write ws ++ "['" ++ content ++ "']")%string.
Proof.
  destruct ws as [|w ws].
  - cbn. rewrite ?string_app_nil_r. reflexivity.
  - rewrite write_snoc by discriminate. cbn [writeRest].
    rewrite ?string_app_nil_r. reflexivity.
Qed.

Lemma write_snoc_plain (ws : list Written) (name : string) :
  ws <> [] ->
  write (ws ++ [plain name]) = (write ws ++ "." ++ name)%string.
Proof.
  intros H. rewrite write_snoc by assumption. cbn [writeRest].
  rewrite ?string_app_nil_r. reflexivity.
Qed.

Lemma spells_snoc (ws : list Written) (w : Written)
    (segments : list PathSegment) :
  spells ws (write ws) segments ->
  wellWritten w = true ->
  spells (ws ++ [w]) (write (ws ++ [w])) (segments ++ [segmentOf w]).
Proof.
  intros (Hwell & _ & Hsegs) Hw. split; [|split].
  - rewrite forallb_app, Hwell. simpl. rewrite Hw. reflexivity.
  - reflexivity.
  - rewrite map_app, Hsegs. reflexivity.
Qed.

Lemma spells_unsnoc (ws : list Written) (w : Written) (text : string)
    (segments : list PathSegment) :
  spells (ws ++ [w]) text (segments ++ [segmentOf w]) ->
  spells ws (write ws) segments /\ wellWritten w = true.
Proof.
  intros (Hwell & _ & Hsegs).
  rewrite forallb_app in Hwell. apply andb_prop in Hwell.
  destruct Hwell as [Hws Hw]. simpl in Hw. rewrite andb_true_r in Hw.
  rewrite map_app in Hsegs. simpl in Hsegs.
  apply app_inj_tail in Hsegs. destruct Hsegs as [Hsegs _].
  repeat split; assumption.
Qed.

Lemma snoc_not_nil (ws : list Written) (w : Written) : ws ++ [w] <> [].
Proof. destruct ws; discriminate. Qed.


Ltac string_norm :=
  unfold snoc;
  repeat first [ rewrite string_app_assoc
               | rewrite string_app_nil_r
               | progress cbn [append] ].

Lemma wellWritten_char (c : ascii) :
  isReserved c = false -> wellWritten (plain (String c "")) = true.
Proof.
  intros H. unfold wellWritten, noneReserved.
  cbn [isEmpty negb andb list_ascii_of_string forallb].
  rewrite H. reflexivity.
Qed.

Lemma wellWritten_digit (c : ascii) :
  isDigit c = true -> wellWritten (bracketed (String c "")) = true.
Proof.
  intros H. unfold wellWritten, allDigits.
  cbn [isEmpty negb andb list_ascii_of_string forallb].
  rewrite H. reflexivity.
Qed.

Lemma spells_nil : spells [] (write []) [].
Proof. repeat split. Qed.

(** One character keeps the lexer in step with the text read. *)
Lemma step_reading (read : string) (st st' : State)
    (segments completed : list PathSegment) (c : ascii) :
  reading read st segments ->
  step st c = Some (st', completed) ->
  reading (snoc read c) st' (segments ++ completed).
Proof.
  destruct st; cbn [step reading].
  - (* Start *)
    intros [-> ->].
    destruct (Ascii.eqb c "[") eqn:Hopen.
    + intros H. injection H as <- <-. apply Ascii.eqb_eq in Hopen. subst c.
      exists []. split; [repeat split|reflexivity].
    + destruct (isReserved c) eqn:Hres; [discriminate|].
      intros H. injection H as <- <-. exists [].
      exact (spells_snoc [] (plain (String c "")) [] spells_nil
               (wellWritten_char c Hres)).
  - (* AfterDot *)
    intros (ws & Hne & Hspells & ->).
    destruct (isReserved c) eqn:Hres; [discriminate|].
    intros H. injection H as <- <-. exists ws.
    rewrite app_nil_r.
    pose proof (spells_snoc ws (plain (String c "")) segments Hspells)
      as Hsnoc.
    cbn [segmentOf] in Hsnoc.
    rewrite (write_snoc_plain ws _ Hne) in Hsnoc.
    unfold snoc. rewrite string_app_assoc. apply Hsnoc.
    apply wellWritten_char. exact Hres.
  - (* InField *)
    intros (ws & Hspells).
    pose proof Hspells as (_ & Hwrite & _).
    destruct (spells_unsnoc ws (plain name) read segments Hspells)
      as [Hws Hname].
    destruct (Ascii.eqb c ".") eqn:Hdot.
    { intros H. injection H as <- <-. apply Ascii.eqb_eq in Hdot. subst c.
      exists (ws ++ [plain name]).
      split; [apply snoc_not_nil|]. split.
      - apply (spells_snoc ws (plain name) segments Hws Hname).
      - unfold snoc. rewrite Hwrite. reflexivity. }
    destruct (Ascii.eqb c "[") eqn:Hopen.
    { intros H. injection H as <- <-. apply Ascii.eqb_eq in Hopen. subst c.
      exists (ws ++ [plain name]). split.
      - apply (spells_snoc ws (plain name) segments Hws Hname).
      - unfold snoc. rewrite Hwrite. reflexivity. }
    destruct (Ascii.eqb c "]") eqn:Hclose; [discriminate|].
    intros H. injection H as <- <-. exists ws. rewrite app_nil_r.
    assert (Hlonger : wellWritten (plain (snoc name c)) = true).
    { cbn [wellWritten] in *. apply andb_prop in Hname.
      destruct Hname as [_ Hnone].
      rewrite isEmpty_snoc, noneReserved_snoc, Hnone.
      rewrite (isReserved_intro c Hdot Hopen Hclose). reflexivity. }
    pose proof (spells_snoc ws (plain (snoc name c)) segments Hws Hlonger)
      as (Hwell & _ & Hsegs).
    split; [exact Hwell|]. split; [|exact Hsegs].
    rewrite <- Hwrite. destruct ws as [|w ws].
    + cbn [app write writeRest]. string_norm. reflexivity.
    + rewrite !write_snoc_plain by discriminate. string_norm. reflexivity.
  - (* Opened *)
    intros (ws & Hspells & ->).
    destruct (isDigit c) eqn:Hdigit.
    { intros H. injection H as <- <-. exists ws, (String c "").
      rewrite app_nil_r. split; [exact Hspells|]. split.
      - apply wellWritten_digit. exact Hdigit.
      - split; [reflexivity|]. string_norm. reflexivity. }
    destruct (Ascii.eqb c "'") eqn:Hquote; [|discriminate].
    intros H. injection H as <- <-. apply Ascii.eqb_eq in Hquote. subst c.
    exists ws. rewrite app_nil_r. split; [exact Hspells|].
    split; [reflexivity|]. string_norm. reflexivity.
  - (* InIndex *)
    intros (ws & digits & Hspells & Hdigits & <- & ->).
    destruct (isDigit c) eqn:Hdigit.
    { intros H. injection H as <- <-. exists ws, (snoc digits c).
      rewrite app_nil_r. split; [exact Hspells|]. split.
      - cbn [wellWritten] in *. apply andb_prop in Hdigits.
        destruct Hdigits as [_ Hall].
        rewrite isEmpty_snoc, allDigits_snoc, Hall, Hdigit. reflexivity.
      - split; [rewrite numeral_snoc; reflexivity|].
        string_norm. reflexivity. }
    destruct (Ascii.eqb c "]") eqn:Hclose; [|discriminate].
    intros H. injection H as <- <-. apply Ascii.eqb_eq in Hclose. subst c.
    exists (ws ++ [bracketed digits]). split; [apply snoc_not_nil|].
    pose proof (spells_snoc ws (bracketed digits) segments Hspells Hdigits)
      as (Hwell & _ & Hsegs).
    split; [exact Hwell|]. split; [|exact Hsegs].
    rewrite write_snoc_bracketed. string_norm. reflexivity.
  - (* InQuote *)
    intros (ws & Hspells & Hcontent & ->).
    destruct (Ascii.eqb c "'") eqn:Hquote.
    { intros H. injection H as <- <-. apply Ascii.eqb_eq in Hquote. subst c.
      exists ws. rewrite app_nil_r. split; [exact Hspells|].
      split; [exact Hcontent|]. string_norm. reflexivity. }
    intros H. injection H as <- <-. exists ws. rewrite app_nil_r.
    split; [exact Hspells|]. split.
    + unfold snoc. rewrite charIn_app, Hcontent, charIn_cons.
      rewrite Ascii.eqb_sym, Hquote. reflexivity.
    + string_norm. reflexivity.
  - (* QuoteClosed *)
    intros (ws & Hspells & Hcontent & ->).
    destruct (Ascii.eqb c "]") eqn:Hclose; [|discriminate].
    intros H. injection H as <- <-. apply Ascii.eqb_eq in Hclose. subst c.
    exists (ws ++ [quoted content]). split; [apply snoc_not_nil|].
    assert (Hw : wellWritten (quoted content) = true).
    { unfold wellWritten. rewrite Hcontent. reflexivity. }
    pose proof (spells_snoc ws (quoted content) segments Hspells Hw)
      as (Hwell & _ & Hsegs).
    split; [exact Hwell|]. split; [|exact Hsegs].
    rewrite write_snoc_quoted. string_norm. reflexivity.
  - (* Closed *)
    intros (ws & Hne & Hspells).
    pose proof Hspells as (Hwell & Hwrite & Hsegs).
    assert (Hself : spells ws (write ws) segments)
      by (repeat split; assumption).
    destruct (Ascii.eqb c ".") eqn:Hdot.
    { intros H. injection H as <- <-. apply Ascii.eqb_eq in Hdot. subst c.
      exists ws. rewrite app_nil_r. split; [exact Hne|].
      split; [exact Hself|]. unfold snoc. rewrite Hwrite. reflexivity. }
    destruct (Ascii.eqb c "[") eqn:Hopen; [|discriminate].
    intros H. injection H as <- <-. apply Ascii.eqb_eq in Hopen. subst c.
    exists ws. rewrite app_nil_r. split; [exact Hself|].
    unfold snoc. rewrite Hwrite. reflexivity.
Qed.


Lemma feed_reading (input : string) :
  forall (read : string) (st st' : State)
    (segments segments' : list PathSegment),
    reading read st segments ->
    feed st segments input = Some (st', segments') ->
    reading (read ++ input) st' segments'.
Proof.
  induction input as [|c input IH];
    intros read st st' segments segments' Hread Hfeed; cbn [feed] in Hfeed.
  - injection Hfeed as <- <-. rewrite string_app_nil_r. exact Hread.
  - destruct (step st c) as [[st1 completed]|] eqn:Hstep; [|discriminate].
    replace (read ++ String c input)%string
      with (snoc read c ++ input)%string by (string_norm; reflexivity).
    eapply IH; [|exact Hfeed].
    eapply step_reading; eassumption.
Qed.

(** Soundness: a path that lexes is spelled by well-written segments. *)
Lemma tokenize_sound (path : string) (segments : list PathSegment) :
  tokenize path = Some segments -> exists ws, spells ws path segments.
Proof.
  intros H.
  destruct (tokenize_inv path segments H)
    as (st & read & last & Hfeed & Hfinish & ->).
  assert (Hstart : reading "" Start []) by (split; reflexivity).
  pose proof (feed_reading path "" Start st [] read Hstart Hfeed) as Hread.
  cbn [append] in Hread.
  destruct st; cbn [finish] in Hfinish; try discriminate;
    injection Hfinish as <-; cbn [reading] in Hread.
  - destruct Hread as [-> ->]. exists []. repeat split.
  - destruct Hread as [ws Hspells]. exists (ws ++ [plain name]).
    exact Hspells.
  - destruct Hread as (ws & _ & Hspells). exists ws.
    rewrite app_nil_r. exact Hspells.
Qed.

Lemma feed_field_chars (name : string) :
  noneReserved name = true ->
  forall (read : string) (segments : list PathSegment),
    feed (InField read) segments name
    = Some (InField (read ++ name), segments).
Proof.
  induction name as [|c name IH]; intros Hname read segments; cbn [feed].
  - rewrite string_app_nil_r. reflexivity.
  - unfold noneReserved in Hname. cbn [list_ascii_of_string forallb] in Hname.
    apply andb_prop in Hname. destruct Hname as [Hc Hname].
    apply negb_true_iff in Hc.
    destruct (isReserved_false c Hc) as (Hdot & Hopen & Hclose).
    cbn [step]. rewrite Hdot, Hopen, Hclose, app_nil_r.
    rewrite (IH Hname). string_norm. reflexivity.
Qed.

Lemma feed_digits (digits : string) :
  allDigits digits = true ->
  forall (value : nat) (segments : list PathSegment),
    feed (InIndex value) segments digits
    = Some (InIndex (numeral value digits), segments).
Proof.
  induction digits as [|c digits IH]; intros Hdigits value segments;
    cbn [feed]; [reflexivity|].
  unfold allDigits in Hdigits. cbn [list_ascii_of_string forallb] in Hdigits.
  apply andb_prop in Hdigits. destruct Hdigits as [Hc Hdigits].
  cbn [step]. rewrite Hc, app_nil_r. rewrite (IH Hdigits). reflexivity.
Qed.

(** How each way of writing a segment is read, from a state where a
    segment may end. *)
Lemma feed_plain (st : State) (segments last : list PathSegment)
    (name : string) :
  finish st = Some last -> st <> Start ->
  wellWritten (plain name) = true ->
  feed st segments ("." ++ name) = Some (InField name, segments ++ last).
Proof.
  intros Hfinish Hstart Hname. cbn [wellWritten] in Hname.
  apply andb_prop in Hname. destruct Hname as [Hempty Hnone].
  destruct name as [|c name]; [discriminate|].
  unfold noneReserved in Hnone. cbn [list_ascii_of_string forallb] in Hnone.
  apply andb_prop in Hnone. destruct Hnone as [Hc Hnone].
  apply negb_true_iff in Hc.
  cbn [append feed].
  destruct (finish_dot st last Hfinish) as [Hnone'|[completed Hdot]].
  - destruct st; cbn in Hfinish, Hnone'; try discriminate; congruence.
  - assert (Hcompleted : completed = last).
    { destruct st; cbn in Hfinish, Hdot; try discriminate;
        injection Hfinish as <-; injection Hdot as <-; reflexivity. }
    subst completed. rewrite Hdot. cbn [step]. rewrite Hc, app_nil_r.
    rewrite (feed_field_chars name Hnone). reflexivity.
Qed.

Lemma feed_bracketed (st : State) (segments last : list PathSegment)
    (digits : string) :
  finish st = Some last ->
  wellWritten (bracketed digits) = true ->
  feed st segments ("[" ++ digits ++ "]")
  = Some (Closed, segments ++ last ++ [index (numeral 0 digits)]).
Proof.
  intros Hfinish Hdigits. cbn [wellWritten] in Hdigits.
  apply andb_prop in Hdigits. destruct Hdigits as [Hempty Hall].
  destruct digits as [|c digits]; [discriminate|].
  unfold allDigits in Hall. cbn [list_ascii_of_string forallb] in Hall.
  apply andb_prop in Hall. destruct Hall as [Hc Hall].
  cbn [append feed]. rewrite (finish_opening st last Hfinish).
  cbn [step]. rewrite Hc, app_nil_r, feed_app.
  rewrite (feed_digits digits Hall). cbn [feed step].
  assert (Hnot : isDigit "]" = false) by reflexivity.
  rewrite Hnot. cbn. rewrite <- app_assoc. reflexivity.
Qed.

Lemma feed_quoted_segment (st : State) (segments last : list PathSegment)
    (content : string) :
  finish st = Some last ->
  wellWritten (quoted content) = true ->
  feed st segments ("['" ++ content ++ "']")
  = Some (Closed, segments ++ last ++ [escapedField content]).
Proof.
  intros Hfinish Hcontent. cbn [wellWritten] in Hcontent.
  apply negb_true_iff in Hcontent.
  cbn [append feed]. rewrite (finish_opening st last Hfinish).
  change (step Opened "'") with (Some (InQuote "", @nil PathSegment)).
  cbn iota. rewrite app_nil_r, feed_app, (feed_quoted content Hcontent).
  cbn. rewrite ?app_nil_r, <- app_assoc. reflexivity.
Qed.

(** Completeness, after the first segment. *)
Lemma feed_writeRest (ws : list Written) :
  forallb wellWritten ws = true ->
  forall (st : State) (segments last : list PathSegment),
    finish st = Some last -> st <> Start ->
    exists st' segments' last',
      feed st segments (writeRest ws) = Some (st', segments')
      /\ finish st' = Some last'
      /\ segments' ++ last' = segments ++ last ++ map segmentOf ws.
Proof.
  induction ws as [|w ws IH]; intros Hwell st segments last Hfinish Hstart.
  - exists st, segments, last. cbn. rewrite app_nil_r. repeat split.
    exact Hfinish.
  - cbn [forallb] in Hwell. apply andb_prop in Hwell.
    destruct Hwell as [Hw Hws].
    destruct w as [name|digits|content]; cbn [writeRest map segmentOf].
    + replace ("." ++ name ++ writeRest ws)%string
        with (("." ++ name) ++ writeRest ws)%string
        by (string_norm; reflexivity).
      rewrite feed_app, (feed_plain st segments last name Hfinish Hstart Hw).
      destruct (IH Hws (InField name) (segments ++ last) [field name]
                  eq_refl ltac:(discriminate))
        as (st' & segments' & last' & Hfeed & Hfin & Heq).
      exists st', segments', last'. split; [exact Hfeed|].
      split; [exact Hfin|]. rewrite Heq, <- !app_assoc. reflexivity.
    + replace ("[" ++ digits ++ "]" ++ writeRest ws)%string
        with (("[" ++ digits ++ "]") ++ writeRest ws)%string
        by (string_norm; reflexivity).
      rewrite feed_app, (feed_bracketed st segments last digits Hfinish Hw).
      destruct (IH Hws Closed (segments ++ last ++ [index (numeral 0 digits)])
                  [] eq_refl ltac:(discriminate))
        as (st' & segments' & last' & Hfeed & Hfin & Heq).
      exists st', segments', last'. split; [exact Hfeed|].
      split; [exact Hfin|]. rewrite Heq, <- !app_assoc. reflexivity.
    + replace ("['" ++ content ++ "']" ++ writeRest ws)%string
        with (("['" ++ content ++ "']") ++ writeRest ws)%string
        by (string_norm; reflexivity).
      rewrite feed_app,
        (feed_quoted_segment st segments last content Hfinish Hw).
      destruct (IH Hws Closed (segments ++ last ++ [escapedField content])
                  [] eq_refl ltac:(discriminate))
        as (st' & segments' & last' & Hfeed & Hfin & Heq).
      exists st', segments', last'. split; [exact Hfeed|].
      split; [exact Hfin|]. rewrite Heq, <- !app_assoc. reflexivity.
Qed.


(** Completeness: well-written segments lex to what they stand for. *)
Lemma tokenize_complete (ws : list Written) :
  forallb wellWritten ws = true ->
  tokenize (write ws) = Some (map segmentOf ws).
Proof.
  intros Hwell. unfold tokenize.
  destruct ws as [|w ws]; [reflexivity|].
  cbn [forallb] in Hwell. apply andb_prop in Hwell.
  destruct Hwell as [Hw Hws].
  destruct w as [name|digits|content]; cbn [write map segmentOf].
  - pose proof Hw as Hname. cbn [wellWritten] in Hname.
    apply andb_prop in Hname. destruct Hname as [Hempty Hnone].
    destruct name as [|c name]; [discriminate|].
    unfold noneReserved in Hnone.
    cbn [list_ascii_of_string forallb] in Hnone.
    apply andb_prop in Hnone. destruct Hnone as [Hc Hnone].
    apply negb_true_iff in Hc.
    destruct (isReserved_false c Hc) as (_ & Hopen & _).
    rewrite feed_app. cbn [feed step]. rewrite Hopen, Hc. cbn [app].
    rewrite (feed_field_chars name Hnone). cbn [append].
    destruct (feed_writeRest ws Hws (InField (String c name)) []
                [field (String c name)] eq_refl ltac:(discriminate))
      as (st' & segments' & last' & Hfeed & Hfin & Heq).
    rewrite Hfeed, Hfin, Heq. reflexivity.
  - cbn [writeRest].
    replace ("[" ++ digits ++ "]" ++ writeRest ws)%string
      with (("[" ++ digits ++ "]") ++ writeRest ws)%string
      by (string_norm; reflexivity).
    rewrite feed_app, (feed_bracketed Start [] [] digits eq_refl Hw).
    destruct (feed_writeRest ws Hws Closed
                ([] ++ [] ++ [index (numeral 0 digits)]) []
                eq_refl ltac:(discriminate))
      as (st' & segments' & last' & Hfeed & Hfin & Heq).
    rewrite Hfeed, Hfin, Heq. reflexivity.
  - cbn [writeRest].
    replace ("['" ++ content ++ "']" ++ writeRest ws)%string
      with (("['" ++ content ++ "']") ++ writeRest ws)%string
      by (string_norm; reflexivity).
    rewrite feed_app, (feed_quoted_segment Start [] [] content eq_refl Hw).
    destruct (feed_writeRest ws Hws Closed
                ([] ++ [] ++ [escapedField content]) []
                eq_refl ltac:(discriminate))
      as (st' & segments' & last' & Hfeed & Hfin & Heq).
    rewrite Hfeed, Hfin, Heq. reflexivity.
Qed.

(** The lexer accepts exactly the texts of the grammar. *)
Lemma tokenize_spells (path : string) (segments : list PathSegment) :
  tokenize path = Some segments <-> exists ws, spells ws path segments.
Proof.
  split; [apply tokenize_sound|].
  intros (ws & Hwell & <- & <-). apply tokenize_complete. exact Hwell.
Qed.

Lemma noneReserved_brackets (name : string) :
  noneReserved name = true ->
  charIn "." name = false /\ charIn "[" name = false
  /\ charIn "]" name = false.
Proof.
  unfold noneReserved.
  induction name as [|c name IH]; [repeat split|].
  cbn [list_ascii_of_string forallb]. intros H.
  apply andb_prop in H. destruct H as [Hc Hname].
  apply negb_true_iff in Hc.
  destruct (isReserved_false c Hc) as (Hdot & Hopen & Hclose).
  destruct (IH Hname) as (IHdot & IHopen & IHclose).
  rewrite !charIn_cons, IHdot, IHopen, IHclose.
  rewrite (Ascii.eqb_sym "." c), (Ascii.eqb_sym "[" c),
    (Ascii.eqb_sym "]" c), Hdot, Hopen, Hclose.
  repeat split.
Qed.

(** No plain field of a path that lexes holds a bracket or a dot. *)
Lemma tokenize_fields (path : string) (segments : list PathSegment)
    (name : string) :
  tokenize path = Some segments ->
  In (field name) segments ->
  name <> ""%string
  /\ charIn "." name = false /\ charIn "[" name = false
  /\ charIn "]" name = false.
Proof.
  intros Hpath Hin.
  destruct (tokenize_sound path segments Hpath) as (ws & Hwell & _ & <-).
  apply in_map_iff in Hin. destruct Hin as (w & Hw & Hinw).
  rewrite forallb_forall in Hwell. specialize (Hwell w Hinw).
  destruct w as [n|digits|content]; cbn [segmentOf] in Hw;
    try discriminate.
  injection Hw as ->. cbn [wellWritten] in Hwell.
  apply andb_prop in Hwell. destruct Hwell as [Hempty Hnone].
  split; [|apply noneReserved_brackets; exact Hnone].
  intros ->. discriminate.
Qed.

End GrammarProperties.

(** C8.  The lexer accepts exactly the texts that spell a sequence of
    well-written segments: unquoted fields free of ['.'], ['['] and [']'],
    digits between brackets, and contents between [['] and [']].  Hence no
    plain field of a path that lexes holds a bracket, every other use of a
    bracket makes the path fail to lex, and the compiler then fails with
    [InvalidExpressionAttributePath].  In particular, wherever a path may
    end, a [']'] that follows is refused, as is a field that starts with
    ['['] or [']'] after a dot, and a ['['] that opens neither an index nor
    a quoted key.  The same key between [['] and [']] lexes to an escaped
    field holding the quoted content, which a record resolves to itself as
    the storage name.  On the suite's schema, [record.[], [map.[] and []]
    fail with that error, while [record['[']], [map['[']] and [[']']]
    compile, with the names ['['], ['['] and [']']. *)
Theorem unescaped_brackets_rejected :
  (forall (pre rest : string) (segments : list PathLexer.PathSegment),
     PathLexer.tokenize pre = Some segments ->
     PathLexer.tokenize (pre ++ "]" ++ rest) = None
     /\ PathLexer.tokenize (pre ++ ".[" ++ rest) = None
     /\ PathLexer.tokenize (pre ++ ".]" ++ rest) = None
     /\ PathLexer.tokenize (pre ++ "[") = None
     /\ forall c : ascii,
          PathLexer.isDigit c = false -> c <> "'"%char ->
          PathLexer.tokenize (pre ++ "[" ++ String c rest) = None)
  /\ (forall validateValue transformValue acceptedKinds
        (root : Schema) (condition : ExpressionCompiler.Condition)
        (options : ExpressionCompiler.Options),
        PathLexer.tokenize (ExpressionCompiler.attrOf condition) = None ->
        ExpressionCompiler.parse validateValue transformValue acceptedKinds
          root condition options
        = inl ExpressionCompiler.InvalidExpressionAttributePath)
  /\ (forall (pre key : string) (segments : list PathLexer.PathSegment),
        PathLexer.tokenize pre = Some segments ->
        charIn "'" key = false ->
        PathLexer.tokenize (pre ++ "['" ++ key ++ "']")
        = Some (segments ++ [PathLexer.escapedField key]))
  /\ (forall (accepts : Schema -> bool) (keys elements : Schema)
        (props : SchemaProps) (key : string)
        (rest : list PathLexer.PathSegment),
        SchemaWalker.resolve accepts (RecordSchema keys elements props)
          (PathLexer.escapedField key :: rest)
        = SchemaWalker.prepend (SchemaWalker.storageName key)
            (SchemaWalker.resolve accepts elements rest))
  /\ (ExpressionCompiler.parse_sample schemaWithSpecChars
        (ExpressionCompiler.beginsWith "record.[" (VStr "foo"))
        ExpressionCompiler.defaultOptions
      = inl ExpressionCompiler.InvalidExpressionAttributePath
      /\ ExpressionCompiler.parse_sample schemaWithSpecChars
           (ExpressionCompiler.beginsWith "map.[" (VStr "foo"))
           ExpressionCompiler.defaultOptions
         = inl ExpressionCompiler.InvalidExpressionAttributePath
      /\ ExpressionCompiler.parse_sample schemaWithSpecChars
           (ExpressionCompiler.beginsWith "]" (VStr "foo"))
           ExpressionCompiler.defaultOptions
         = inl ExpressionCompiler.InvalidExpressionAttributePath)
  /\ (ExpressionCompiler.parse_sample schemaWithSpecChars
        (ExpressionCompiler.beginsWith "record['[']" (VStr "foo"))
        ExpressionCompiler.defaultOptions
      = inr {| ExpressionCompiler.ConditionExpression :=
                 "begins_with(#c_1.#c_2, :c_1)";
               ExpressionCompiler.ExpressionAttributeNames :=
                 [("#c_1", "record"); ("#c_2", "[")];
               ExpressionCompiler.ExpressionAttributeValues :=
                 [(":c_1", VStr "foo")] |}
      /\ ExpressionCompiler.parse_sample schemaWithSpecChars
           (ExpressionCompiler.beginsWith "map['[']" (VStr "foo"))
           ExpressionCompiler.defaultOptions
         = inr {| ExpressionCompiler.ConditionExpression :=
                    "begins_with(#c_1.#c_2, :c_1)";
                  ExpressionCompiler.ExpressionAttributeNames :=
                    [("#c_1", "map"); ("#c_2", "[")];
                  ExpressionCompiler.ExpressionAttributeValues :=
                    [(":c_1", VStr "foo")] |}
      /\ ExpressionCompiler.parse_sample schemaWithSpecChars
           (ExpressionCompiler.beginsWith "[']']" (VStr "foo"))
           ExpressionCompiler.defaultOptions
         = inr {| ExpressionCompiler.ConditionExpression :=
                    "begins_with(#c_1, :c_1)";
                  ExpressionCompiler.ExpressionAttributeNames :=
                    [("#c_1", "]")];
                  ExpressionCompiler.ExpressionAttributeValues :=
                    [(":c_1", VStr "foo")] |})
  /\ (forall (path : string) (segments : list PathLexer.PathSegment),
        PathLexer.tokenize path = Some segments
        <-> exists ws, PathGrammar.spells ws path segments)
  /\ (forall (path : string) (segments : list PathLexer.PathSegment)
        (name : string),
        PathLexer.tokenize path = Some segments ->
        In (PathLexer.field name) segments ->
        name <> ""%string
        /\ charIn "." name = false /\ charIn "[" name = false
        /\ charIn "]" name = false)
  /\ (forall validateValue transformValue acceptedKinds
        (root : Schema) (condition : ExpressionCompiler.Condition)
        (options : ExpressionCompiler.Options),
        ~ (exists ws,
             forallb PathGrammar.wellWritten ws = true
             /\ PathGrammar.write ws = ExpressionCompiler.attrOf condition) ->
        ExpressionCompiler.parse validateValue transformValue acceptedKinds
          root condition options
        = inl ExpressionCompiler.InvalidExpressionAttributePath).
Proof.
  split; [|split; [|split; [|split; [|split; [|split; [|split; [|split]]]]]]].
  - intros pre rest segments Hpre.
    destruct (tokenize_inv pre segments Hpre)
      as (st & read & last & Hfeed & Hfinish & _).
    repeat split.
    + rewrite (tokenize_app pre _ st read Hfeed). simpl.
      rewrite (finish_closing st last Hfinish). reflexivity.
    + rewrite (tokenize_app pre _ st read Hfeed). simpl.
      destruct (finish_dot st last Hfinish) as [->|[completed ->]];
        reflexivity.
    + rewrite (tokenize_app pre _ st read Hfeed). simpl.
      destruct (finish_dot st last Hfinish) as [->|[completed ->]];
        reflexivity.
    + rewrite (tokenize_app pre _ st read Hfeed). simpl.
      rewrite (finish_opening st last Hfinish). reflexivity.
    + intros c Hdigit Hquote.
      rewrite (tokenize_app pre _ st read Hfeed). simpl.
      rewrite (finish_opening st last Hfinish). simpl.
      rewrite Hdigit.
      apply Ascii.eqb_neq in Hquote. rewrite Hquote. reflexivity.
  - intros validateValue transformValue acceptedKinds root condition options
      Hpath.
    unfold ExpressionCompiler.parse. rewrite Hpath. reflexivity.
  - intros pre key segments Hpre Hkey.
    destruct (tokenize_inv pre segments Hpre)
      as (st & read & last & Hfeed & Hfinish & ->).
    rewrite (tokenize_app pre _ st read Hfeed). simpl.
    rewrite (finish_opening st last Hfinish). simpl.
    rewrite app_nil_r, feed_app, (feed_quoted key Hkey). simpl.
    rewrite !app_nil_r. reflexivity.
  - reflexivity.
  - repeat split; reflexivity.
  - repeat split; reflexivity.
  - exact tokenize_spells.
  - exact tokenize_fields.
  - intros validateValue transformValue acceptedKinds root condition options
      Hnone.
    unfold ExpressionCompiler.parse.
    destruct (PathLexer.tokenize (ExpressionCompiler.attrOf condition))
      as [segments|] eqn:Hpath; [|reflexivity].
    exfalso. apply Hnone.
    destruct (tokenize_sound _ _ Hpath) as (ws & Hwell & Hwrite & _).
    exists ws. split; assumption.
Qed.

Lemma unescaped_brackets_rejected_witness :
  PathLexer.tokenize "record]" = None
  /\ PathLexer.tokenize "record.[" = None
  /\ PathLexer.tokenize "record[']']"
     = Some [PathLexer.field "record"; PathLexer.escapedField "]"].
Proof.
  destruct unescaped_brackets_rejected
    as (Hreject & _ & Hquote & _).
  destruct (Hreject "record" "" [PathLexer.field "record"] eq_refl)
    as (Hclosing & Hopening & _).
  split; [exact Hclosing|]. split; [exact Hopening|].
  exact (Hquote "record" "]" [PathLexer.field "record"] eq_refl eq_refl).
Defined.

(* ================================================================= *)
(** ** Further properties of [parseReferenceExtension] *)

Section GeneratorShape.

(** Lines 73-91, for any fallback parser whatsoever: the generator built
    around it stops on or before its second advancement; with [transform]
    off it stops at its first, and with [transform] on a first advancement
    that does not raise is a yield. *)
Lemma emitReference_advancements (transform : bool) (reference : value)
    (fallbackParser : option Generator) :
  snd (next (snd (next (emitReference transform reference fallbackParser))))
  = GDone
  /\ List.length (emitted (emitReference transform reference fallbackParser))
     <= 2
  /\ (forall res,
        fst (next (emitReference transform reference fallbackParser))
        = inr res ->
        done res = negb transform)
  /\ (transform = false ->
      snd (next (emitReference transform reference fallbackParser)) = GDone).
Proof.
  unfold emitReference. destruct fallbackParser as [parser|].
  - destruct (next parser) as [[e|r1] parser1]; simpl.
    + repeat split; auto. intros res H. discriminate.
    + destruct transform; simpl.
      * destruct (next parser1) as [[e|r2] parser2]; simpl;
          (repeat split; auto; [intros res H; injection H as <-; reflexivity
                               |discriminate]).
      * repeat split; auto. intros res H. injection H as <-. reflexivity.
  - destruct transform; simpl;
      (repeat split; auto; try discriminate;
       intros res H; injection H as <-; reflexivity).
Qed.

(** The [$GET] array handed out has the reference and, exactly when a
    fallback parser was started, one more element. *)
Lemma emitReference_tuple (transform : bool) (r : string)
    (fallbackParser : option Generator) :
  Forall
    (fun out =>
       exists tail,
         out = VObj [(GET, VArr (VStr r :: tail))]
         /\ List.length tail
            = match fallbackParser with Some _ => 1 | None => 0 end)
    (emitted (emitReference transform (VStr r) fallbackParser)).
Proof.
  unfold emitReference, referenceValue.
  destruct fallbackParser as [parser|].
  - destruct (next parser) as [[e|r1] parser1]; simpl; [constructor|].
    destruct transform; simpl.
    + destruct (next parser1) as [[e|r2] parser2]; simpl;
        repeat constructor; eexists; split; reflexivity.
    + repeat constructor; eexists; split; reflexivity.
  - destruct transform; simpl; repeat constructor; eexists; split; reflexivity.
Qed.

(** With [transform] on, the second advancement raises what the second
    advancement of the fallback's parser raises. *)
Lemma emitReference_second_raises (reference : value)
    (fallbackParser : option Generator) (e : DynamoDBToolboxError) :
  fst (next (snd (next (emitReference true reference fallbackParser))))
  = inl e
  <-> exists parser res parser1,
        fallbackParser = Some parser
        /\ next parser = (inr res, parser1)
        /\ fst (next parser1) = inl e.
Proof.
  unfold emitReference. destruct fallbackParser as [parser|].
  - destruct (next parser) as [[e'|r1] parser1] eqn:Hfirst; simpl.
    + split; [discriminate|].
      intros (p & res & p1 & Hp & Hnext & _). injection Hp as <-.
      rewrite Hfirst in Hnext. discriminate.
    + destruct (next parser1) as [[e'|r2] parser2] eqn:Hsecond; simpl.
      * split.
        -- intros H. exists parser, r1, parser1.
           rewrite Hsecond. repeat split; [exact Hfirst|exact H].
        -- intros (p & res & p1 & Hp & Hnext & He). injection Hp as <-.
           rewrite Hfirst in Hnext. injection Hnext as <- <-.
           rewrite Hsecond in He. exact He.
      * split; [discriminate|].
        intros (p & res & p1 & Hp & Hnext & He). injection Hp as <-.
        rewrite Hfirst in Hnext. injection Hnext as <- <-.
        rewrite Hsecond in He. discriminate.
  - simpl. split; [discriminate|].
    intros (p & res & p1 & Hp & _). discriminate.
Qed.

End GeneratorShape.

Section ReferenceExtras.

Variable formatArrayPath : ArrayPath -> option string.
Variable validateValue :
  Schema -> value -> ArrayPath -> DynamoDBToolboxError + value.
Variable transformValue :
  Schema -> value -> ArrayPath -> DynamoDBToolboxError + value.

Local Abbreviation Parser_start := (Parser_start validateValue transformValue).
Local Abbreviation extensionParser :=
  (extensionParser formatArrayPath validateValue transformValue).
Local Abbreviation parseReferenceExtension :=
  (parseReferenceExtension formatArrayPath validateValue transformValue).

Lemma reference_generator (schema : Schema) (inputValue : value)
    (options : ExtensionParserOptions) :
  isReference inputValue = true ->
  parseReferenceExtension schema inputValue options
  = IsExtension
      (extensionParser parseReferenceExtension schema inputValue
         (transformOf options) (valuePath options)).
Proof.
  apply (parseReferenceExtension_reference
           formatArrayPath validateValue transformValue).
Qed.

(** The generator of a reference construct is an error, or [emitReference]
    around at most one fallback parser. *)
Lemma extensionParser_cases (self : ExtensionParser) (schema : Schema)
    (inputValue : value) (transform : bool) (valuePath : option ArrayPath) :
  (exists e,
     extensionParser self schema inputValue transform valuePath = GThrow e)
  \/ exists reference fallbackParser,
       extensionParser self schema inputValue transform valuePath
       = emitReference transform reference fallbackParser.
Proof.
  unfold extensionParser.
  destruct (getProp inputValue GET) as [| | | | |elems|];
    try (left; eexists; reflexivity).
  cbv zeta. destruct (negb (isString (elemAt 0 elems))).
  - left. eexists. reflexivity.
  - right. eexists. eexists. reflexivity.
Qed.


(** X1.  With [transform: false] the generator of a reference construct
    never yields: its first advancement raises or returns with
    [done: true], and the generator is finished after it (lines 82-86). *)
Theorem transform_off_returns_at_once (schema : Schema) (inputValue : value)
    (options : ExtensionParserOptions) :
  isReference inputValue = true ->
  transformOf options = false ->
  exists g,
    parseReferenceExtension schema inputValue options = IsExtension g
    /\ snd (next g) = GDone
    /\ (forall res, fst (next g) = inr res -> done res = true)
    /\ List.length (emitted g) <= 1.
Proof.
  intros Href Htr. rewrite (reference_generator schema _ options Href), Htr.
  eexists. split; [reflexivity|].
  destruct (extensionParser_cases parseReferenceExtension schema inputValue
              false (valuePath options))
    as [[e ->]|(reference & fallbackParser & ->)].
  - simpl. repeat split; auto. discriminate.
  - destruct (emitReference_advancements false reference fallbackParser)
      as (_ & _ & Hdone & Hstop).
    split; [apply Hstop; reflexivity|]. split; [exact Hdone|].
    specialize (Hstop eq_refl).
    destruct (emitReference false reference fallbackParser);
      simpl in *; try lia.
    subst. simpl. specialize (Hdone _ eq_refl). discriminate.
Qed.

(** X2.  Whatever the options and whatever the fallback's parser does, the
    generator of a reference construct yields at most once: it hands out at
    most two values and is finished after its second advancement
    (lines 73-91). *)
Theorem generator_stops_within_two_advancements (schema : Schema)
    (inputValue : value) (options : ExtensionParserOptions) :
  isReference inputValue = true ->
  exists g,
    parseReferenceExtension schema inputValue options = IsExtension g
    /\ snd (next (snd (next g))) = GDone
    /\ List.length (emitted g) <= 2.
Proof.
  intros Href. rewrite (reference_generator schema _ options Href).
  eexists. split; [reflexivity|].
  destruct (extensionParser_cases parseReferenceExtension schema inputValue
              (transformOf options) (valuePath options))
    as [[e ->]|(reference & fallbackParser & ->)].
  - simpl. split; [reflexivity|lia].
  - destruct (emitReference_advancements (transformOf options) reference
                fallbackParser) as (Hstop & Hlen & _).
    split; assumption.
Qed.

(** X3.  The values handed out are normalised: on a construct whose [$GET]
    array is led by a string, whatever else the input object and the array
    hold, every value yielded or returned is again a reference construct
    whose [$GET] value is a pair of one or two elements led by that string,
    of one element when element 1 of the input is [undefined] and of two
    otherwise (lines 73-81 and 88-90). *)
Theorem emitted_values_are_well_formed (schema : Schema) (inputValue : value)
    (options : ExtensionParserOptions) (elems : list value) (r : string) :
  isReference inputValue = true ->
  getProp inputValue GET = VArr elems ->
  elemAt 0 elems = VStr r ->
  exists g,
    parseReferenceExtension schema inputValue options = IsExtension g
    /\ Forall
         (fun out =>
            isReference out = true
            /\ malformed (getProp out GET) = false
            /\ exists tail,
                 getProp out GET = VArr (VStr r :: tail)
                 /\ List.length tail
                    = if isUndefined (elemAt 1 elems) then 0 else 1)
         (emitted g).
Proof.
  intros Href Hget Hhead.
  rewrite (reference_generator schema _ options Href).
  eexists. split; [reflexivity|].
  unfold extensionParser. rewrite Hget. cbv zeta. rewrite Hhead.
  cbn [isString negb].
  match goal with
  | |- Forall _ (emitted (emitReference ?t _ ?fp)) =>
      pose proof (emitReference_tuple t r fp) as Hall
  end.
  eapply Forall_impl; [|exact Hall].
  intros out (tail & -> & Hlen). cbn [getProp lookupProp].
  assert (Hkey : PropKey_eqb GET GET = true) by reflexivity.
  rewrite Hkey.
  split; [reflexivity|]. split.
  - destruct (isUndefined (elemAt 1 elems)); simpl in Hlen;
      destruct tail as [|x [|y tail]]; simpl in Hlen; try discriminate;
      reflexivity.
  - exists tail. split; [reflexivity|].
    destruct (isUndefined (elemAt 1 elems)); exact Hlen.
Qed.

(** X4.  Of a reference construct only the first two elements of its [$GET]
    array are read, and of the options only [transform] (by default [true])
    and [valuePath] (by default the empty path): two inputs that agree on
    these are answered alike, whatever their other properties and further
    elements.  In particular [[r, undefined]] is the same as [[r]]
    (lines 22, 34-35 and 49). *)
Theorem only_the_first_two_elements_are_read (schema : Schema)
    (inputValue1 inputValue2 : value)
    (options1 options2 : ExtensionParserOptions)
    (elems1 elems2 : list value) :
  isReference inputValue1 = true ->
  isReference inputValue2 = true ->
  getProp inputValue1 GET = VArr elems1 ->
  getProp inputValue2 GET = VArr elems2 ->
  elemAt 0 elems1 = elemAt 0 elems2 ->
  elemAt 1 elems1 = elemAt 1 elems2 ->
  transformOf options1 = transformOf options2 ->
  referencesPathOf options1 = referencesPathOf options2 ->
  parseReferenceExtension schema inputValue1 options1
  = parseReferenceExtension schema inputValue2 options2.
Proof.
  intros Href1 Href2 Hget1 Hget2 Hhead Hfallback Htr Hpath.
  rewrite (reference_generator schema _ options1 Href1).
  rewrite (reference_generator schema _ options2 Href2).
  f_equal. unfold extensionParser. rewrite Hget1, Hget2. cbv zeta.
  fold (referencesPathOf options1). fold (referencesPathOf options2).
  rewrite Hhead, Hfallback, Htr, Hpath. reflexivity.
Qed.

(** X6.  With [transform] on, a first advancement that does not raise is a
    yield ([done: false]), whether or not the fallback's parser had more to
    give; and the second advancement raises exactly when the construct has
    a fallback whose parser, having answered its first advancement, raises
    at its second, and then with that error (lines 82-91). *)
Theorem second_phase_errors_are_the_fallback_s (schema : Schema)
    (inputValue : value) (options : ExtensionParserOptions)
    (elems : list value) (r : string) :
  isReference inputValue = true ->
  transformOf options = true ->
  getProp inputValue GET = VArr elems ->
  elemAt 0 elems = VStr r ->
  exists g,
    parseReferenceExtension schema inputValue options = IsExtension g
    /\ (forall res, fst (next g) = inr res -> done res = false)
    /\ forall e,
         fst (next (snd (next g))) = inl e
         <-> elemAt 1 elems <> VUndefined
             /\ exists res parser1,
                  next (Parser_start schema (elemAt 1 elems)
                          {| opt_fill := false;
                             opt_transform := true;
                             opt_parseExtension := parseReferenceExtension;
                             opt_valuePath :=
                               referencesPathOf options ++ [PNum 1] |})
                  = (inr res, parser1)
                  /\ fst (next parser1) = inl e.
Proof.
  intros Href Htr Hget Hhead.
  rewrite (reference_generator schema _ options Href), Htr.
  eexists. split; [reflexivity|].
  unfold extensionParser. rewrite Hget. cbv zeta. rewrite Hhead.
  cbn [isString negb]. fold (referencesPathOf options). split.
  - intros res H.
    match goal with
    | H : fst (next (emitReference true ?ref ?fp)) = _ |- _ =>
        destruct (emitReference_advancements true ref fp)
          as (_ & _ & Hdone & _)
    end.
    exact (Hdone res H).
  - intros e. rewrite emitReference_second_raises.
    destruct (isUndefined (elemAt 1 elems)) eqn:Hundef; cbn [negb].
    + split.
      * intros (p & res & p1 & Hp & _). discriminate.
      * intros [Hne _]. apply isUndefined_true in Hundef. contradiction.
    + split.
      * intros (p & res & p1 & Hp & Hnext & He). injection Hp as <-.
        split; [intros Heq; rewrite Heq in Hundef; discriminate|].
        exists res, p1. split; assumption.
      * intros (_ & res & p1 & Hnext & He).
        eexists. exists res, p1. split; [reflexivity|]. split; assumption.
Qed.

End ReferenceExtras.

(** X5.  The schema and the validation pipeline come into play for a
    fallback only: when the construct is rejected (its [$GET] value is not
    an array, or the first element is not a string), or when element 1 is
    [undefined], the answer is the same for every schema and every
    pipeline.  In particular a construct whose first element is not a
    string is rejected on that ground before its fallback is looked at
    (lines 37-71). *)
Theorem pipeline_is_consulted_for_a_fallback_only
    (formatArrayPath : ArrayPath -> option string)
    (validateValue1 transformValue1 validateValue2 transformValue2 :
       Schema -> value -> ArrayPath -> DynamoDBToolboxError + value)
    (schema1 schema2 : Schema) (inputValue : value)
    (options : ExtensionParserOptions) :
  isReference inputValue = true ->
  rejected (getProp inputValue GET) = true
  \/ (exists elems,
        getProp inputValue GET = VArr elems /\ elemAt 1 elems = VUndefined) ->
  parseReferenceExtension formatArrayPath validateValue1 transformValue1
    schema1 inputValue options
  = parseReferenceExtension formatArrayPath validateValue2 transformValue2
      schema2 inputValue options.
Proof.
  intros Href Hcase.
  rewrite (parseReferenceExtension_reference formatArrayPath
             validateValue1 transformValue1 schema1 inputValue options Href).
  rewrite (parseReferenceExtension_reference formatArrayPath
             validateValue2 transformValue2 schema2 inputValue options Href).
  f_equal. unfold extensionParser.
  destruct (getProp inputValue GET) as [| | | | |elems|] eqn:Hget;
    try reflexivity.
  cbv zeta. destruct Hcase as [Hrejected|(elems' & Helems & Hundef)].
  - simpl in Hrejected. rewrite Hrejected. reflexivity.
  - injection Helems as <-. rewrite Hundef. cbn [isUndefined negb].
    reflexivity.
Qed.

(** X7.  At run time [lightTuple] is [light] applied to each schema of the
    tuple, and [lightObj] is [light] applied to each entry of the object
    under its own key, as the types [LightTuple] and [LightObj] declare;
    and lightening twice is lightening once. *)
Theorem lighteners_act_elementwise :
  (forall schemas : list Schema,
     Lightener.lightTuple schemas = map Lightener.light schemas)
  /\ (forall schemas : list (string * Schema),
        Lightener.lightObj schemas
        = map (fun entry => (fst entry, Lightener.light (snd entry))) schemas)
  /\ (forall schema : Schema,
        Lightener.light (Lightener.light schema) = Lightener.light schema).
Proof.
  split; [|split].
  - intros schemas. unfold Lightener.lightTuple.
    induction schemas as [|schema rest IH]; simpl; [reflexivity|].
    rewrite <- IH. reflexivity.
  - intros schemas. unfold Lightener.lightObj.
    induction schemas as [|[key schema] rest IH]; simpl; [reflexivity|].
    rewrite <- IH. reflexivity.
  - reflexivity.
Qed.

(** ** The further properties on concrete inputs *)

Lemma transform_off_returns_at_once_witness :
  exists g,
    parseReferenceExtension_sample (NumberSchema noProps)
      (getting (VArr [VStr "count"; VNum 0]))
      {| transform := Some false; valuePath := None |}
    = IsExtension g
    /\ snd (next g) = GDone
    /\ (forall res, fst (next g) = inr res -> done res = true)
    /\ List.length (emitted g) <= 1.
Proof.
  apply (transform_off_returns_at_once
           formatArrayPath_sample validateValue_sample transformValue_sample
           (NumberSchema noProps) (getting (VArr [VStr "count"; VNum 0]))
           {| transform := Some false; valuePath := None |});
    reflexivity.
Defined.

Lemma generator_stops_within_two_advancements_witness :
  exists g,
    parseReferenceExtension_sample (StringSchema noProps)
      (fallbackChain ["a"; "b"] (VStr "dflt")) noOptions
    = IsExtension g
    /\ snd (next (snd (next g))) = GDone
    /\ List.length (emitted g) <= 2.
Proof.
  apply (generator_stops_within_two_advancements
           formatArrayPath_sample validateValue_sample transformValue_sample
           (StringSchema noProps) (fallbackChain ["a"; "b"] (VStr "dflt"))
           noOptions).
  reflexivity.
Defined.

Lemma emitted_values_are_well_formed_witness :
  exists g,
    parseReferenceExtension_sample (StringSchema noProps)
      (VObj [(KStr "other", VNum 1);
             (GET, VArr [VStr "a"; VStr "b"; VStr "c"])]) noOptions
    = IsExtension g
    /\ Forall
         (fun out =>
            isReference out = true
            /\ malformed (getProp out GET) = false
            /\ exists tail,
                 getProp out GET = VArr (VStr "a" :: tail)
                 /\ List.length tail = 1)
         (emitted g).
Proof.
  apply (emitted_values_are_well_formed
           formatArrayPath_sample validateValue_sample transformValue_sample
           (StringSchema noProps)
           (VObj [(KStr "other", VNum 1);
                  (GET, VArr [VStr "a"; VStr "b"; VStr "c"])])
           noOptions [VStr "a"; VStr "b"; VStr "c"] "a");
    reflexivity.
Defined.

Lemma only_the_first_two_elements_are_read_witness :
  parseReferenceExtension_sample (StringSchema noProps)
    (VObj [(KStr "other", VNum 1);
           (GET, VArr [VStr "a"; VStr "b"; VStr "c"])])
    noOptions
  = parseReferenceExtension_sample (StringSchema noProps)
      (getting (VArr [VStr "a"; VStr "b"]))
      {| transform := Some true; valuePath := Some [] |}.
Proof.
  apply (only_the_first_two_elements_are_read
           formatArrayPath_sample validateValue_sample transformValue_sample
           (StringSchema noProps)
           (VObj [(KStr "other", VNum 1);
                  (GET, VArr [VStr "a"; VStr "b"; VStr "c"])])
           (getting (VArr [VStr "a"; VStr "b"]))
           noOptions {| transform := Some true; valuePath := Some [] |}
           [VStr "a"; VStr "b"; VStr "c"] [VStr "a"; VStr "b"]);
    reflexivity.
Defined.

Lemma pipeline_is_consulted_for_a_fallback_only_witness :
  parseReferenceExtension formatArrayPath_sample
    validateValue_sample transformValue_sample
    (StringSchema noProps) (getting (VArr [VNum 1; getting (VNum 7)]))
    noOptions
  = parseReferenceExtension formatArrayPath_sample
      (fun _ v _ => inr v) (fun _ _ _ => inr VNull)
      (NumberSchema noProps) (getting (VArr [VNum 1; getting (VNum 7)]))
      noOptions.
Proof.
  apply (pipeline_is_consulted_for_a_fallback_only
           formatArrayPath_sample
           validateValue_sample transformValue_sample
           (fun _ v _ => inr v) (fun _ _ _ => inr VNull)
           (StringSchema noProps) (NumberSchema noProps)
           (getting (VArr [VNum 1; getting (VNum 7)])) noOptions).
  - reflexivity.
  - left. reflexivity.
Defined.

Lemma second_phase_errors_are_the_fallback_s_witness :
  exists g,
    parseReferenceExtension formatArrayPath_sample validateValue_sample
      (fun _ v p =>
         inl {| code := "transform.failed"; message := "";
                path := formatArrayPath_sample p; received := v |})
      (StringSchema noProps) (getting (VArr [VStr "a"; VStr "b"])) noOptions
    = IsExtension g
    /\ (forall res, fst (next g) = inr res -> done res = false)
    /\ exists e,
         fst (next (snd (next g))) = inl e /\ code e = "transform.failed".
Proof.
  destruct (second_phase_errors_are_the_fallback_s
              formatArrayPath_sample validateValue_sample
              (fun _ v p =>
                 inl {| code := "transform.failed"; message := "";
                        path := formatArrayPath_sample p; received := v |})
              (StringSchema noProps) (getting (VArr [VStr "a"; VStr "b"]))
              noOptions [VStr "a"; VStr "b"] "a"
              eq_refl eq_refl eq_refl eq_refl)
    as (g & Hparse & Hyield & Hsecond).
  exists g. split; [exact Hparse|]. split; [exact Hyield|].
  eexists. split.
  - apply Hsecond. split; [discriminate|].
    eexists. eexists. split; reflexivity.
  - reflexivity.
Defined.
